(** * Shallow embedding of [kge/model/kge_model.py]

    The development follows the source file top-down: Python exceptions
    become an [error] type and a small error monad, torch tensors become
    lists (row batches) and shape-plus-flat-data records (score tensors),
    [RelationalScorer.score_emb] is translated first, then the
    configuration accessor used by [KgeEmbedder], the embedder itself and
    finally the [KgeModel] facade. *)

From stdpp Require Import base list strings gmap.
From Stdlib Require Import ZArith.

(** ** Exceptions and the error monad *)

(** The Python exception classes the source raises or lets through. *)
Inductive error : Type :=
| AssertionError
| ValueError (msg : string)
| KeyError (key : string)
| TypeError
| AttributeError
| IndexError
| RuntimeError.

Inductive result (A : Type) : Type :=
| Ok (a : A)
| Err (e : error).
Arguments Ok {A} a.
Arguments Err {A} e.

#[global] Instance result_ret : MRet result := λ A a, Ok a.
#[global] Instance result_bind : MBind result := λ A B f m,
  match m with
  | Ok a => f a
  | Err e => Err e
  end.

(** [assert b]: an [assert] statement whose condition evaluated to [b]. *)
Definition py_assert (b : bool) : result unit :=
  if b then Ok tt else Err AssertionError.

Definition is_Ok {A} (r : result A) : bool :=
  match r with Ok _ => true | Err _ => false end.

(** ** Tensors *)

(** A score tensor: its [shape] and its elements in row-major order, as a
    contiguous torch tensor stores them. *)
Record tensor (A : Type) : Type := Tensor {
  shape : list nat;
  data : list A
}.
Arguments Tensor {A} shape data.
Arguments shape {A} t.
Arguments data {A} t.

(** Entry [(i, j)] of a two-dimensional tensor. *)
Definition entry {A} (t : tensor A) (i j : nat) : option A :=
  match shape t with
  | [n; k] => if bool_decide (i < n ∧ j < k) then data t !! (i * k + j) else None
  | _ => None
  end.

(** [t.view(n, -1)]: the second extent is inferred from the number of
    elements.  torch refuses to infer it when [n = 0] (any extent would
    do) and when [n] does not divide the number of elements. *)
Definition view2 {A} (n : nat) (t : tensor A) : result (tensor A) :=
  let numel := length (data t) in
  if bool_decide (n = 0) then Err RuntimeError
  else if bool_decide (numel `mod` n = 0)
       then Ok (Tensor [n; numel `div` n] (data t))
       else Err RuntimeError.

(** An embedding batch is a two-dimensional tensor whose rows are
    embedding vectors; it is kept as the list of its rows, so that
    [size(0)] is [length]. *)

(** [x.repeat_interleave(k, 0)]: every row [k] times before the next. *)
Definition repeat_interleave {A} (k : nat) (rows : list A) : list A :=
  concat (map (replicate k) rows).

(** [x.repeat((n, 1))]: the whole batch [n] times along dimension 0. *)
Definition repeat_rows {A} (n : nat) (rows : list A) : list A :=
  concat (replicate n rows).

(** Row-wise combination of three aligned batches. *)
Fixpoint map3 {A B C D} (f : A → B → C → D)
    (s : list A) (p : list B) (o : list C) : list D :=
  match s, p, o with
  | x :: s', y :: p', z :: o' => f x y z :: map3 f s' p' o'
  | _, _, _ => []
  end.

(** ** RelationalScorer *)

(** The message of the [ValueError] raised for an unknown [combine]: the
    source writes the call to [format] inside the string literal, so the
    literal is the message. *)
Definition dquote : string := String (Ascii.ascii_of_nat 34) EmptyString.
Definition cannot_handle_combine : string :=
  "cannot handle combine=" +:+ dquote +:+ "{}" +:+ dquote +:+ ".format(combine)".

(** Whether [needle] occurs in [hay] as a contiguous substring. *)
Fixpoint occurs (needle hay : string) : bool :=
  String.prefix needle hay ||
  match hay with
  | EmptyString => false
  | String _ hay' => occurs needle hay'
  end.

Section RelationalScorer.
(** An embedding row and a score. *)
Context {Emb Score : Type}.

(** The scoring primitive [score_emb_spo] as a concrete scorer overrides
    it (in the base class it only calls back [score_emb]). *)
Variable score_emb_spo : list Emb → list Emb → list Emb → result (tensor Score).

Definition score_emb (s_emb p_emb o_emb : list Emb) (combine : string)
    : result (tensor Score) :=
  let n := length p_emb in
  out ←
    (if decide (combine = "spo") then
       _ ← py_assert (bool_decide (length s_emb = n) && bool_decide (length o_emb = n));
       score_emb_spo s_emb p_emb o_emb
     else if decide (combine = "sp*") then
       _ ← py_assert (bool_decide (length s_emb = n));
       let n_o := length o_emb in
       let s_embs := repeat_interleave n_o s_emb in
       let p_embs := repeat_interleave n_o p_emb in
       let o_embs := repeat_rows n o_emb in
       score_emb_spo s_embs p_embs o_embs
     else if decide (combine = "*po") then
       _ ← py_assert (bool_decide (length o_emb = n));
       let n_s := length s_emb in
       let s_embs := repeat_rows n s_emb in
       let p_embs := repeat_interleave n_s p_emb in
       let o_embs := repeat_interleave n_s o_emb in
       score_emb_spo s_embs p_embs o_embs
     else Err (ValueError cannot_handle_combine));
  view2 n out.
End RelationalScorer.

(** The documented contract of the primitive: on three batches of [n] rows
    each it returns the [n × 1] tensor of the row-wise scores. *)
Definition rowwise {Emb Score : Type} (score_triple : Emb → Emb → Emb → Score)
    (score_emb_spo : list Emb → list Emb → list Emb → result (tensor Score)) : Prop :=
  ∀ s p o, length s = length p → length o = length p →
    score_emb_spo s p o = Ok (Tensor [length p; 1] (map3 score_triple s p o)).

(** A concrete scorer: one-column embeddings scored by the sum of the three
    rows' entries. *)
Module SumScorer.
Definition Emb : Type := list Z.
Definition sum_row (r : Emb) : Z := foldr Z.add 0%Z r.
Definition score_triple (s p o : Emb) : Z := (sum_row s + sum_row p + sum_row o)%Z.
Definition score_emb_spo (s p o : list Emb) : result (tensor Z) :=
  if bool_decide (length s = length p ∧ length o = length p)
  then Ok (Tensor [length p; 1] (map3 score_triple s p o))
  else Err RuntimeError.
End SumScorer.

(** ** Configuration accessor *)

(** Modelled from the spec: the [Config] class of [kge] (not in this file's
    source).  The hierarchical store is kept as its enumeration into dotted
    keys, in the order of the underlying dictionaries; a subtree is the
    entries below a prefix.  [get] fails with a missing-key error when the
    key is absent, [set] fails with a [ValueError] when the key is not in
    the store or holds a value of another type, [clone] makes an
    independent copy, and [flatten] enumerates a subtree into a flat
    key-to-value mapping. *)
Inductive scalar : Type :=
| SInt (z : Z)
| SFloat (bits : Z)
| SStr (s : string)
| SBool (b : bool).

Inductive scalar_type : Type := TInt | TFloat | TStr | TBool.

#[global] Instance scalar_type_eq_dec : EqDecision scalar_type.
Proof. solve_decision. Defined.

Definition type_of (x : scalar) : scalar_type :=
  match x with
  | SInt _ => TInt
  | SFloat _ => TFloat
  | SStr _ => TStr
  | SBool _ => TBool
  end.

(** What [Config.get] returns: a leaf value or the dictionary of a subtree. *)
Inductive value : Type :=
| Leaf (x : scalar)
| Subtree (d : list (string * scalar)).

(** Python dictionaries with string keys, in insertion order. *)
Fixpoint dict_lookup {V} (k : string) (d : list (string * V)) : option V :=
  match d with
  | [] => None
  | (k', v) :: d' => if decide (k = k') then Some v else dict_lookup k d'
  end.

Definition dict_remove {V} (k : string) (d : list (string * V)) : list (string * V) :=
  filter (λ kv, kv.1 ≠ k) d.

(** [del d[k]] *)
Definition dict_del {V} (k : string) (d : list (string * V)) : result (list (string * V)) :=
  match dict_lookup k d with
  | Some _ => Ok (dict_remove k d)
  | None => Err (KeyError k)
  end.

(** [d[k] = v] for a key already in [d]. *)
Definition dict_update {V} (k : string) (v : V) (d : list (string * V)) : list (string * V) :=
  map (λ kv, if decide (kv.1 = k) then (k, v) else kv) d.

Fixpoint strip_prefix (p s : string) : option string :=
  match p, s with
  | EmptyString, _ => Some s
  | String a p', String b s' => if decide (a = b) then strip_prefix p' s' else None
  | String _ _, EmptyString => None
  end.

(** The entries below [key], with keys relative to it. *)
Definition subtree (key : string) (options : list (string * scalar)) : list (string * scalar) :=
  omap (λ kv, (λ k', (k', kv.2)) <$> strip_prefix (key +:+ ".") kv.1) options.

Definition options_get (options : list (string * scalar)) (key : string) : result value :=
  match dict_lookup key options with
  | Some x => Ok (Leaf x)
  | None =>
      match subtree key options with
      | [] => Err (KeyError key)
      | d => Ok (Subtree d)
      end
  end.

Definition options_set (options : list (string * scalar)) (key : string) (v : scalar)
    : result (list (string * scalar)) :=
  match dict_lookup key options with
  | Some current =>
      if decide (type_of current = type_of v)
      then Ok (dict_update key v options)
      else Err (ValueError ("key " +:+ key +:+ " has incorrect type"))
  | None => Err (ValueError ("key " +:+ key +:+ " not present"))
  end.

(** [Config.flatten]: a fresh flat dictionary of a subtree. *)
Definition Config_flatten (v : value) : result (list (string * scalar)) :=
  match v with
  | Subtree d => Ok d
  | Leaf _ => Err AttributeError
  end.

(** Configuration objects live in a store and are passed by reference, so
    that a [set] through one reference is seen through every alias. *)
Abbreviation store := (gmap nat (list (string * scalar))).

(** Computations that read and update the store and may raise. *)
Definition M (A : Type) : Type := store → result A * store.

#[global] Instance M_ret : MRet M := λ A a h, (Ok a, h).
#[global] Instance M_bind : MBind M := λ A B f m h,
  match m h with
  | (Ok a, h') => f a h'
  | (Err e, h') => (Err e, h')
  end.

Definition lift {A} (r : result A) : M A := λ h, (r, h).

(** A reference outside the store does not occur in Python; the model
    stops there with an error. *)
Definition deref (config : nat) : M (list (string * scalar)) := λ h,
  match h !! config with
  | Some options => (Ok options, h)
  | None => (Err RuntimeError, h)
  end.

Definition assign (config : nat) (options : list (string * scalar)) : M unit := λ h,
  (Ok tt, <[config := options]> h).

Definition alloc (options : list (string * scalar)) : M nat := λ h,
  let new := fresh (dom h) in (Ok new, <[new := options]> h).

Definition Config_get (config : nat) (key : string) : M value :=
  options ← deref config; lift (options_get options key).

Definition Config_set (config : nat) (key : string) (v : scalar) : M unit :=
  options ← deref config;
  options' ← lift (options_set options key v);
  assign config options'.

Definition Config_clone (config : nat) : M nat :=
  options ← deref config; alloc options.

(** ** KgeEmbedder *)

(** The attributes [KgeEmbedder.__init__] sets itself and the [config]
    it reads; those of the [KgeBase] part of the object are in the record
    [KgeBase] below. [dim] is unset until the last statement of the
    constructor. *)
Record KgeEmbedder : Type := {
  config : nat;
  configuration_key : string;
  embedder_type : value;
  dim : option value
}.

(** [v + s] for a Python value [v] and a string [s]. *)
Definition py_add_str (v : value) (s : string) : result string :=
  match v with
  | Leaf (SStr t) => Ok (t +:+ s)
  | _ => Err TypeError
  end.

(** [try: body except KeyError: handler] *)
Definition except_KeyError {A} (body handler : M A) : M A := λ h,
  match body h with
  | (Err (KeyError _), h') => handler h'
  | r => r
  end.

(** [try: body except ValueError: raise e] *)
Definition except_ValueError {A} (body : M A) (e : error) : M A := λ h,
  match body h with
  | (Err (ValueError _), h') => (Err e, h')
  | r => r
  end.

Definition get_option (self : KgeEmbedder) (name : string) : M value :=
  except_KeyError
    (Config_get (config self) (configuration_key self +:+ "." +:+ name))
    (key ← lift (py_add_str (embedder_type self) ("." +:+ name));
     Config_get (config self) key).

Definition invalid_key_message (configuration_key key : string) : string :=
  "key " +:+ configuration_key +:+ "." +:+ key +:+ " invalid or of incorrect type".

(** The loop over [custom_options.items()]. *)
Fixpoint verify_custom_options (self : KgeEmbedder) (dummy_config : nat)
    (custom_options : list (string * scalar)) : M unit :=
  match custom_options with
  | [] => mret tt
  | (key, v) :: rest =>
      _ ← except_ValueError
            (k ← lift (py_add_str (embedder_type self) ("." +:+ key));
             Config_set dummy_config k v)
            (ValueError (invalid_key_message (configuration_key self) key));
      verify_custom_options self dummy_config rest
  end.

(** The statements of [KgeEmbedder.__init__] after its first one, the
    call of [super().__init__], which is [KgeBase_init] below and
    allocates [meta]; [KgeEmbedder_construct] runs the two in turn. *)
Definition KgeEmbedder_init (config : nat) (configuration_key : string) : M KgeEmbedder :=
  embedder_type ← Config_get config (configuration_key +:+ ".type");
  let self := {| config := config; configuration_key := configuration_key;
                 embedder_type := embedder_type; dim := None |} in
  section ← Config_get config configuration_key;
  custom_options ← lift (Config_flatten section);
  custom_options ← lift (dict_del "type" custom_options);
  dummy_config ← Config_clone config;
  _ ← verify_custom_options self dummy_config custom_options;
  dim ← get_option self "dim";
  mret {| config := config; configuration_key := configuration_key;
          embedder_type := embedder_type; dim := Some dim |}.

(** A custom option is valid for the default schema of [embedder_type]
    when the schema has its key with a value of the same type. *)
Definition valid_option (options : list (string * scalar)) (embedder_type : string)
    (kv : string * scalar) : Prop :=
  type_of <$> dict_lookup (embedder_type +:+ "." +:+ kv.1) options = Some (type_of kv.2).

#[global] Instance valid_option_dec options embedder_type kv :
  Decision (valid_option options embedder_type kv).
Proof. unfold valid_option. apply _. Defined.

(** A computation leaves the configuration behind [c] as it is, and its
    result satisfies [Q]. *)
Definition frames {A} (c : nat) (m : M A) (Q : A → Prop) : Prop :=
  ∀ h, is_Some (h !! c) →
    (m h).2 !! c = h !! c ∧ ∀ a, (m h).1 = Ok a → Q a.

(** A computation returns a value in [Q] or raises an error in [E]. *)
Definition outcome {A} (m : M A) (Q : A → Prop) (E : error → Prop) : Prop :=
  ∀ h, match (m h).1 with Ok a => Q a | Err e => E e end.

(** The only [ValueError] an embedder with configuration key
    [configuration_key] may raise: the invalid-key message for a custom
    option other than ["type"]. *)
Definition invalid_key_error (configuration_key : string) (e : error) : Prop :=
  ∀ msg, e = ValueError msg →
    ∃ key, key ≠ "type" ∧ msg = invalid_key_message configuration_key key.

(** Two configurations with the same keys holding values of the same types. *)
Definition same_schema (a b : list (string * scalar)) : Prop :=
  ∀ k, type_of <$> dict_lookup k a = type_of <$> dict_lookup k b.

(** ** KgeModel *)

(** [torch.cat((a, b), dim=1)] of two-dimensional tensors: the rows of [a]
    extended by the rows of [b]; the row counts must agree. *)
Definition rows_of {A} (n k : nat) (l : list A) : list (list A) :=
  (λ i, take k (drop (i * k) l)) <$> seq 0 n.

Definition cat_dim1 {A} (a b : tensor A) : result (tensor A) :=
  match shape a, shape b with
  | [n; k1], [n'; k2] =>
      if decide (n = n')
      then Ok (Tensor [n; k1 + k2]
                 (concat (zip_with app (rows_of n k1 (data a)) (rows_of n k2 (data b)))))
      else Err RuntimeError
  | _, _ => Err RuntimeError
  end.

Section KgeModel.
Context {Emb Score : Type}.

(** Modelled from the spec: a concrete embedder ([embed] and [embed_all]
    raise [NotImplementedError] in the base class).  It owns one embedding
    table with a row per object of its vocabulary; [embed] returns one row
    per index, in input order, and fails when an index is outside the
    vocabulary; [embed_all] returns the whole table.  [object_id] is the
    identity that Python's [is] compares. *)
Record embedder : Type := {
  object_id : nat;
  embedding_table : list Emb
}.

Definition embed_one (self : embedder) (index : Z) : result Emb :=
  if bool_decide (0 ≤ index < Z.of_nat (length (embedding_table self)))%Z
  then match embedding_table self !! Z.to_nat index with
       | Some row => Ok row
       | None => Err IndexError
       end
  else Err IndexError.

Fixpoint embed (self : embedder) (indexes : list Z) : result (list Emb) :=
  match indexes with
  | [] => Ok []
  | index :: rest =>
      row ← embed_one self index;
      rows ← embed self rest;
      Ok (row :: rows)
  end.

Definition embed_all (self : embedder) : result (list Emb) :=
  Ok (embedding_table self).

(** The facade with its embedders in place; [_scorer] is the scorer's
    primitive, through which [score_emb] is called. *)
Record KgeModel : Type := {
  _entity_embedder : embedder;
  _relation_embedder : embedder;
  _scorer : list Emb → list Emb → list Emb → result (tensor Score)
}.

Definition get_s_embedder (self : KgeModel) : embedder := _entity_embedder self.
Definition get_o_embedder (self : KgeModel) : embedder := _entity_embedder self.
Definition get_p_embedder (self : KgeModel) : embedder := _relation_embedder self.

Definition score_spo (self : KgeModel) (s p o : list Z) : result (tensor Score) :=
  s ← embed (get_s_embedder self) s;
  p ← embed (get_p_embedder self) p;
  o ← embed (get_o_embedder self) o;
  score_emb (_scorer self) s p o "spo".

Definition score_sp (self : KgeModel) (s p : list Z) (o : option (list Z))
    : result (tensor Score) :=
  s ← embed (get_s_embedder self) s;
  p ← embed (get_p_embedder self) p;
  o ← match o with
      | None => embed_all (get_o_embedder self)
      | Some o => embed (get_o_embedder self) o
      end;
  score_emb (_scorer self) s p o "sp*".

Definition score_po (self : KgeModel) (p o : list Z) (s : option (list Z))
    : result (tensor Score) :=
  s ← match s with
      | None => embed_all (get_s_embedder self)
      | Some s => embed (get_s_embedder self) s
      end;
  o ← embed (get_o_embedder self) o;
  p ← embed (get_p_embedder self) p;
  score_emb (_scorer self) s p o "*po".

Definition score_sp_po (self : KgeModel) (s p o : list Z) : result (tensor Score) :=
  s ← embed (get_s_embedder self) s;
  p ← embed (get_p_embedder self) p;
  o ← embed (get_o_embedder self) o;
  '(sp_scores, po_scores) ←
    (if decide (object_id (get_s_embedder self) = object_id (get_o_embedder self)) then
       all_entities ← embed_all (get_s_embedder self);
       sp_scores ← score_emb (_scorer self) s p all_entities "sp*";
       po_scores ← score_emb (_scorer self) all_entities p o "*po";
       Ok (sp_scores, po_scores)
     else
       all_objects ← embed_all (get_o_embedder self);
       sp_scores ← score_emb (_scorer self) s p all_objects "sp*";
       all_subjects ← embed_all (get_s_embedder self);
       po_scores ← score_emb (_scorer self) all_subjects p o "*po";
       Ok (sp_scores, po_scores));
  cat_dim1 sp_scores po_scores.

(** The two halves computed independently and concatenated, as the
    docstring of [score_sp_po] describes its result. *)
Definition score_sp_po_spec (self : KgeModel) (s p o : list Z) : result (tensor Score) :=
  sp_scores ← score_sp self s p None;
  po_scores ← score_po self p o None;
  cat_dim1 sp_scores po_scores.

(** Index sequences within the vocabulary of an embedder. *)
Definition valid_indexes (self : embedder) (indexes : list Z) : Prop :=
  Forall (λ i, (0 ≤ i < Z.of_nat (length (embedding_table self)))%Z) indexes.
End KgeModel.
Arguments embedder : clear implicits.
Arguments KgeModel : clear implicits.

(** The scenario of the spec: three entities, two relations, one-column
    embeddings and the sum scorer. *)
Module Scenario.
Definition entities : embedder (list Z) :=
  {| object_id := 0; embedding_table := [[1]; [2]; [3]]%Z |}.
Definition relations : embedder (list Z) :=
  {| object_id := 1; embedding_table := [[10]; [100]]%Z |}.
Definition model : KgeModel (list Z) Z :=
  {| _entity_embedder := entities; _relation_embedder := relations;
     _scorer := SumScorer.score_emb_spo |}.

(** A configuration with the defaults of an embedder type and an entity
    embedder that overrides [dim]; the second one also sets a key that the
    defaults do not have. *)
Definition defaults : list (string * scalar) :=
  [("lookup_embedder.class_name", SStr "LookupEmbedder");
   ("lookup_embedder.dim", SInt 100);
   ("lookup_embedder.sparse", SBool false)].
Definition options : list (string * scalar) :=
  defaults ++ [("m.entity_embedder.type", SStr "lookup_embedder");
               ("m.entity_embedder.dim", SInt 1)].
Definition bad_options : list (string * scalar) :=
  defaults ++ [("m.entity_embedder.type", SStr "lookup_embedder");
               ("m.entity_embedder.dim", SInt 1);
               ("m.entity_embedder.dimension", SInt 1)].
Definition configs : store := {[ 0 := options; 1 := bad_options ]}.
End Scenario.

(** ** KgeEmbedder.check_option *)

Section CheckOption.
(** [Config.check], which the source only calls: it is a parameter here. *)
Variable Config_check : nat → string → list value → M bool.

Definition check_option (self : KgeEmbedder) (name : string)
    (allowed_values : list value) : M bool :=
  key ← except_KeyError
          (let key := configuration_key self +:+ "." +:+ name in
           _ ← Config_get (config self) key;
           mret key)
          (lift (py_add_str (embedder_type self) ("." +:+ name)));
  Config_check (config self) key allowed_values.
End CheckOption.

(** What [get_option] finds for [name] in a configuration: the value of
    the embedder's own scope, else that of the scope of its type. *)
Definition resolve_option (options : list (string * scalar))
    (configuration_key embedder_type name : string) : result value :=
  match options_get options (configuration_key +:+ "." +:+ name) with
  | Ok v => Ok v
  | Err _ => options_get options (embedder_type +:+ "." +:+ name)
  end.

(** ** The factory methods *)

(** The factories raise two exceptions more than the rest of the file:
    the plain [Exception] and [ImportError]. *)
Inductive raised : Type :=
| Builtin (e : error)
| Exception (msg : string)
| ImportError.

Inductive completion (A : Type) : Type :=
| Returned (a : A)
| Raised (r : raised).
Arguments Returned {A} a.
Arguments Raised {A} r.

Definition F (A : Type) : Type := store → completion A * store.

(** A computation of the rest of the file, run where the factories are. *)
Definition run {A} (m : M A) : F A := λ h,
  match m h with
  | (Ok a, h') => (Returned a, h')
  | (Err e, h') => (Raised (Builtin e), h')
  end.

#[global] Instance F_ret : MRet F := λ A a h, (Returned a, h).
#[global] Instance F_bind : MBind F := λ A B f m h,
  match m h with
  | (Returned a, h') => f a h'
  | (Raised r, h') => (Raised r, h')
  end.

(** The part of [Dataset] the constructors read. *)
Record Dataset : Type := {
  num_entities : nat;
  num_relations : nat
}.

(** The left operand of [+ ".class_name"]: a string, or [TypeError]. *)
Definition as_str (v : value) : result string :=
  match v with
  | Leaf (SStr t) => Ok t
  | _ => Err TypeError
  end.

Definition cannot_find_type (configuration_key : string) : string :=
  "Can't find " +:+ configuration_key +:+ ".type in config".

Definition cannot_find_class (class_name kind name : string) : string :=
  "Can't find class " +:+ class_name +:+ " in 'kge.model' for " +:+ kind +:+ " " +:+ name.

(** [try: body except ImportError: raise ValueError(msg)] *)
Definition except_ImportError {A} (body : F A) (msg : string) : F A := λ h,
  match body h with
  | (Raised ImportError, h') => (Raised (Builtin (ValueError msg)), h')
  | r => r
  end.

(** [getattr(module, name)(...)] for a string [name], the attributes of
    [kge.model] and what calling them does being given by [classes]: a name
    the module does not have is an [AttributeError]. *)
Definition getattr_call {A} (classes : string → option (F A)) (name : string) : F A :=
  λ h, match classes name with
       | Some constructor => constructor h
       | None => (Raised (Builtin AttributeError), h)
       end.

Section Factories.
Context {Embedder Model : Type}.

(** The classes of [kge.model], as [KgeEmbedder.create] calls them (with
    [config], [dataset], [configuration_key] and [vocab_size]) and as
    [KgeModel.create] calls them (with [config] and [dataset]). *)
Variable embedder_classes : string → option (nat → Dataset → string → nat → F Embedder).
Variable model_classes : string → option (nat → Dataset → F Model).

(** [model.to(device)] of torch, which moves the model in place. *)
Variable to : Model → value → completion Model.

(** The second [try] is entered with [embedder_type] a string, the
    concatenation in the first one having succeeded; a [class_name] that is
    not a string makes [getattr] raise [TypeError]. *)
Definition KgeEmbedder_create (config : nat) (dataset : Dataset)
    (configuration_key : string) (vocab_size : nat) : F Embedder := λ h,
  match (embedder_type ← Config_get config (configuration_key +:+ ".type");
         embedder_type ← lift (as_str embedder_type);
         class_name ← Config_get config (embedder_type +:+ ".class_name");
         mret (embedder_type, class_name)) h with
  | (Err _, h') => (Raised (Exception (cannot_find_type configuration_key)), h')
  | (Ok (embedder_type, Leaf (SStr class_name)), h') =>
      except_ImportError
        (getattr_call
           (λ name, (λ cls, cls config dataset configuration_key vocab_size)
                      <$> embedder_classes name)
           class_name)
        (cannot_find_class class_name "embedder" embedder_type)
        h'
  | (Ok _, h') => (Raised (Builtin TypeError), h')
  end.

(** [ImportError] can only come from the call of the class: the lookups
    before it raise [KeyError] or [TypeError], which the handler lets
    through. *)
Definition KgeModel_create (config : nat) (dataset : Dataset) : F Model := λ h,
  match (model_name ← Config_get config "model";
         model_name ← lift (as_str model_name);
         class_name ← Config_get config (model_name +:+ ".class_name");
         mret (model_name, class_name)) h with
  | (Err e, h') => (Raised (Builtin e), h')
  | (Ok (model_name, Leaf (SStr class_name)), h') =>
      match except_ImportError
              (getattr_call
                 (λ name, (λ cls, cls config dataset) <$> model_classes name)
                 class_name)
              (cannot_find_class class_name "model" model_name)
              h' with
      | (Returned model, h'') =>
          match Config_get config "job.device" h'' with
          | (Ok device, h3) =>
              match to model device with
              | Returned model' => (Returned model', h3)
              | Raised r => (Raised r, h3)
              end
          | (Err e, h3) => (Raised (Builtin e), h3)
          end
      | (Raised r, h'') => (Raised r, h'')
      end
  | (Ok _, h') => (Raised (Builtin TypeError), h')
  end.
End Factories.

(** ** KgeBase: save and load *)

(** [d[k]] and [d[k] = v] on a dictionary. *)
Definition dict_getitem {V} (k : string) (d : list (string * V)) : result V :=
  match dict_lookup k d with
  | Some v => Ok v
  | None => Err (KeyError k)
  end.

Definition dict_setitem {V} (k : string) (v : V) (d : list (string * V)) : list (string * V) :=
  match dict_lookup k d with
  | Some _ => dict_update k v d
  | None => d ++ [(k, v)]
  end.

Section KgeBase.
(** What torch keeps of a module, and its [state_dict] and
    [load_state_dict], which may change the module before it raises. *)
Context {Torch StateDict : Type}.
Variable state_dict : Torch → StateDict.
Variable load_state_dict : Torch → StateDict → result unit * Torch.

(** [meta] is a dictionary object: it lives in the store, as the
    configurations do, and the module holds a reference to it. *)
Record KgeBase : Type := {
  torch_module : Torch;
  base_config : nat;
  meta : nat
}.

Definition KgeBase_init (torch_module : Torch) (config : nat) : M KgeBase :=
  meta ← alloc [];
  mret {| torch_module := torch_module; base_config := config; meta := meta |}.

Definition save (self : KgeBase) : StateDict * nat :=
  (state_dict (torch_module self), meta self).

Definition load (self : KgeBase) (savepoint : StateDict * nat) : result unit * KgeBase :=
  match load_state_dict (torch_module self) savepoint.1 with
  | (Ok _, torch_module') =>
      (Ok tt, {| torch_module := torch_module'; base_config := base_config self;
                 meta := savepoint.2 |})
  | (Err e, torch_module') =>
      (Err e, {| torch_module := torch_module'; base_config := base_config self;
                 meta := meta self |})
  end.

(** [self.meta[k] = v] and [self.meta[k]] *)
Definition meta_setitem (self : KgeBase) (k : string) (v : scalar) : M unit :=
  d ← deref (meta self); assign (meta self) (dict_setitem k v d).

Definition meta_getitem (self : KgeBase) (k : string) : M scalar :=
  d ← deref (meta self); lift (dict_getitem k d).
End KgeBase.
Arguments KgeBase : clear implicits.

(** ** The constructors with their base part *)

(** [KgeEmbedder.__init__] as a whole: [super().__init__(config, dataset)],
    with [torch_module] what torch sets up for a new module, and then the
    statements of [KgeEmbedder_init]. *)
Definition KgeEmbedder_construct {Torch : Type} (torch_module : Torch) (config : nat)
    (configuration_key : string) : M (KgeBase Torch * KgeEmbedder) :=
  base ← KgeBase_init torch_module config;
  self ← KgeEmbedder_init config configuration_key;
  mret (base, self).

Section ModelConstructor.
Context {Torch Embedder : Type}.
Variable embedder_classes : string → option (nat → Dataset → string → nat → F Embedder).

(** [KgeModel.__init__]: the [KgeBase] part of the object, then the entity
    embedder and the relation embedder it creates, or [None] for both; the
    scorer, which it only stores, is left out. *)
Definition KgeModel_init (torch_module : Torch) (config : nat) (dataset : Dataset)
    (initialize_embedders : bool)
    : F (KgeBase Torch * option Embedder * option Embedder) :=
  base ← run (KgeBase_init torch_module config);
  if initialize_embedders then
    key ← run (model ← Config_get config "model";
               lift (py_add_str model ".entity_embedder"));
    entity_embedder ← KgeEmbedder_create embedder_classes config dataset key
                        (num_entities dataset);
    let num_relations := num_relations dataset in
    key ← run (model ← Config_get config "model";
               lift (py_add_str model ".relation_embedder"));
    relation_embedder ← KgeEmbedder_create embedder_classes config dataset key
                          num_relations;
    mret (base, Some entity_embedder, Some relation_embedder)
  else mret (base, None, None).
End ModelConstructor.

(** The scenario's classes: an embedder class that does what the base
    constructor does, and one whose import fails. *)
Module Classes.
Definition embedder_classes (name : string)
    : option (nat → Dataset → string → nat → F KgeEmbedder) :=
  if decide (name = "LookupEmbedder")
  then Some (λ config _ configuration_key _, run (KgeEmbedder_init config configuration_key))
  else if decide (name = "BrokenEmbedder")
  then Some (λ _ _ _ _ h, (Raised ImportError, h))
  else None.
Definition dataset : Dataset := {| num_entities := 3; num_relations := 2 |}.

(** A model class that returns its configuration reference, a [to] that
    keeps the model, a [check] that looks the key up and accepts, and a
    [load_state_dict] on lists of weights that refuses another length. *)
Definition model_classes (name : string) : option (nat → Dataset → F nat) :=
  if decide (name = "Model") then Some (λ config _ h, (Returned config, h)) else None.
Definition to (model : nat) (device : value) : completion nat := Returned model.
Definition Config_check (config : nat) (key : string) (allowed_values : list value) : M bool :=
  _ ← Config_get config key; mret true.
Definition state_dict (weights : list Z) : list Z := weights.
Definition load_state_dict (weights state : list Z) : result unit * list Z :=
  if decide (length weights = length state)
  then (Ok tt, state)
  else (Err RuntimeError, weights).
End Classes.

(** * Properties *)

(** ** Block repetition, tiling and row-wise combination *)

Lemma length_repeat_interleave {A} (k : nat) (rows : list A) :
  length (repeat_interleave k rows) = length rows * k.
Proof.
  unfold repeat_interleave.
  induction rows as [|r rows IH]; simpl; [done|].
  rewrite length_app, length_replicate, IH. lia.
Qed.

Lemma length_repeat_rows {A} (n : nat) (rows : list A) :
  length (repeat_rows n rows) = n * length rows.
Proof.
  unfold repeat_rows.
  induction n as [|n IH]; simpl; [done|].
  rewrite length_app, IH. lia.
Qed.

Lemma lookup_repeat_interleave {A} (k : nat) (rows : list A) (i j : nat) :
  j < k → repeat_interleave k rows !! (i * k + j) = rows !! i.
Proof.
  intros Hj. unfold repeat_interleave.
  revert i. induction rows as [|r rows IH]; intros i; simpl.
  - by rewrite !lookup_nil.
  - destruct i as [|i]; simpl.
    + rewrite lookup_app_l by (rewrite length_replicate; lia).
      by apply lookup_replicate_2.
    + rewrite lookup_app_r by (rewrite length_replicate; lia).
      rewrite length_replicate.
      replace (k + i * k + j - k) with (i * k + j) by lia.
      apply IH.
Qed.

Lemma lookup_repeat_rows {A} (n : nat) (rows : list A) (i j : nat) :
  i < n → j < length rows →
  repeat_rows n rows !! (i * length rows + j) = rows !! j.
Proof.
  intros Hi Hj. unfold repeat_rows.
  revert i Hi. induction n as [|n IH]; intros i Hi; [lia|]. simpl.
  destruct i as [|i]; simpl.
  - by rewrite lookup_app_l.
  - rewrite lookup_app_r by lia.
    replace (length rows + i * length rows + j - length rows)
      with (i * length rows + j) by lia.
    apply IH. lia.
Qed.

Lemma length_map3 {A B C D} (f : A → B → C → D) s p o :
  length s = length p → length o = length p → length (map3 f s p o) = length p.
Proof.
  revert p o. induction s as [|x s IH]; intros [|y p] [|z o]; simpl; try done.
  intros Hs Ho. f_equal. apply IH; lia.
Qed.

Lemma lookup_map3 {A B C D} (f : A → B → C → D) s p o i x y z :
  s !! i = Some x → p !! i = Some y → o !! i = Some z →
  map3 f s p o !! i = Some (f x y z).
Proof.
  revert p o i. induction s as [|x' s IH]; intros [|y' p] [|z' o] [|i]; simpl; try done.
  - by intros [= ->] [= ->] [= ->].
  - apply IH.
Qed.

Lemma view2_Ok {A} (n k : nat) (t : tensor A) :
  0 < n → length (data t) = n * k → view2 n t = Ok (Tensor [n; k] (data t)).
Proof.
  intros Hn Hlen. unfold view2.
  rewrite bool_decide_eq_false_2 by lia.
  rewrite Hlen.
  rewrite bool_decide_eq_true_2 by (rewrite Nat.mul_comm; apply Nat.Div0.mod_mul).
  by rewrite Nat.mul_comm, Nat.div_mul by lia.
Qed.

Lemma entry_lookup {A} (n k : nat) (l : list A) (i j : nat) :
  i < n → j < k → entry (Tensor [n; k] l) i j = l !! (i * k + j).
Proof.
  intros Hi Hj. unfold entry. simpl.
  by rewrite bool_decide_eq_true_2.
Qed.

Lemma sum_scorer_rowwise : rowwise SumScorer.score_triple SumScorer.score_emb_spo.
Proof.
  intros s p o Hs Ho. unfold SumScorer.score_emb_spo.
  by rewrite bool_decide_eq_true_2.
Qed.

(** ** RelationalScorer.score_emb *)

(** Row counts of the expanded batches. *)
Ltac aligned :=
  rewrite ?length_repeat_interleave, ?length_repeat_rows;
  repeat match goal with H : length _ = length _ |- _ => rewrite H; clear H end;
  lia.

Section ScorerProperties.
Context {Emb Score : Type}.
Variable score_triple : Emb → Emb → Emb → Score.
Variable score_emb_spo : list Emb → list Emb → list Emb → result (tensor Score).
Hypothesis primitive_rowwise : rowwise score_triple score_emb_spo.

Lemma score_emb_sp_star_unfold (s p o : list Emb) :
  length s = length p →
  score_emb score_emb_spo s p o "sp*" =
    (out ← score_emb_spo (repeat_interleave (length o) s)
                         (repeat_interleave (length o) p)
                         (repeat_rows (length p) o);
     view2 (length p) out).
Proof.
  intros Hs. unfold score_emb.
  rewrite decide_False by done. rewrite decide_True by done.
  by rewrite bool_decide_eq_true_2.
Qed.

Lemma score_emb_star_po_unfold (s p o : list Emb) :
  length o = length p →
  score_emb score_emb_spo s p o "*po" =
    (out ← score_emb_spo (repeat_rows (length p) s)
                         (repeat_interleave (length s) p)
                         (repeat_interleave (length s) o);
     view2 (length p) out).
Proof.
  intros Ho. unfold score_emb.
  rewrite decide_False by done. rewrite decide_False by done.
  rewrite decide_True by done.
  by rewrite bool_decide_eq_true_2.
Qed.

Lemma score_emb_spo_eq (s p o : list Emb) :
  length s = length p → length o = length p → 0 < length p →
  score_emb score_emb_spo s p o "spo" =
    Ok (Tensor [length p; 1] (map3 score_triple s p o)).
Proof.
  intros Hs Ho Hn. unfold score_emb.
  rewrite decide_True by done.
  rewrite !bool_decide_eq_true_2 by done. simpl.
  rewrite primitive_rowwise by done. simpl.
  rewrite (view2_Ok _ 1); [done|done|].
  simpl. rewrite length_map3 by done. lia.
Qed.

Lemma score_emb_sp_star_eq (s p o : list Emb) :
  length s = length p → 0 < length p →
  score_emb score_emb_spo s p o "sp*" =
    Ok (Tensor [length p; length o]
          (map3 score_triple (repeat_interleave (length o) s)
                             (repeat_interleave (length o) p)
                             (repeat_rows (length p) o))).
Proof.
  intros Hs Hn.
  rewrite score_emb_sp_star_unfold by done.
  rewrite primitive_rowwise by aligned.
  simpl.
  rewrite (view2_Ok _ (length o)); [|done|].
  - by rewrite length_repeat_interleave.
  - simpl. rewrite length_map3 by aligned. aligned.
Qed.

Lemma score_emb_star_po_eq (s p o : list Emb) :
  length o = length p → 0 < length p →
  score_emb score_emb_spo s p o "*po" =
    Ok (Tensor [length p; length s]
          (map3 score_triple (repeat_rows (length p) s)
                             (repeat_interleave (length s) p)
                             (repeat_interleave (length s) o))).
Proof.
  intros Ho Hn.
  rewrite score_emb_star_po_unfold by done.
  rewrite primitive_rowwise by aligned.
  simpl.
  rewrite (view2_Ok _ (length s)); [|done|].
  - by rewrite length_repeat_interleave.
  - simpl. rewrite length_map3 by aligned. aligned.
Qed.

(** X23: with [n_s = n_p = n >= 1], the mode ["sp*"] returns an
    [n × n_o] matrix whose entry [(i, j)] is the primitive's score of
    [(s_i, p_i, o_j)]; its elements are the scores of
    the aligned triples made of [s] and [p] block-repeated [n_o] times and
    [o] tiled [n] times, laid out row-major. *)
Theorem score_emb_sp_star (s p o : list Emb) :
  length s = length p → 0 < length p →
  ∃ out, score_emb score_emb_spo s p o "sp*" = Ok out
    ∧ shape out = [length p; length o]
    ∧ data out = map3 score_triple (repeat_interleave (length o) s)
                                   (repeat_interleave (length o) p)
                                   (repeat_rows (length p) o)
    ∧ ∀ i j si pi oj,
        s !! i = Some si → p !! i = Some pi → o !! j = Some oj →
        entry out i j = Some (score_triple si pi oj).
Proof.
  intros Hs Hn.
  rewrite score_emb_sp_star_eq by done.
  eexists; split; [done|]. simpl. split; [done|]. split; [done|].
  intros i j si pi oj Hi Hp Hj.
  pose proof (lookup_lt_Some _ _ _ Hp) as Hip.
  pose proof (lookup_lt_Some _ _ _ Hj) as Hjo.
  rewrite entry_lookup by done.
  apply lookup_map3.
  - by rewrite lookup_repeat_interleave.
  - by rewrite lookup_repeat_interleave.
  - by rewrite lookup_repeat_rows.
Qed.

(** X24: with [n_p = n_o = n >= 1], the mode ["*po"] returns an
    [n × n_s] matrix whose entry [(i, j)] is the primitive's score of
    [(s_j, p_i, o_i)]; its elements are the scores of
    the aligned triples made of [s] tiled [n] times and [p] and [o]
    block-repeated [n_s] times, laid out row-major. *)
Theorem score_emb_star_po (s p o : list Emb) :
  length o = length p → 0 < length p →
  ∃ out, score_emb score_emb_spo s p o "*po" = Ok out
    ∧ shape out = [length p; length s]
    ∧ data out = map3 score_triple (repeat_rows (length p) s)
                                   (repeat_interleave (length s) p)
                                   (repeat_interleave (length s) o)
    ∧ ∀ i j sj pi oi,
        s !! j = Some sj → p !! i = Some pi → o !! i = Some oi →
        entry out i j = Some (score_triple sj pi oi).
Proof.
  intros Ho Hn.
  rewrite score_emb_star_po_eq by done.
  eexists; split; [done|]. simpl. split; [done|]. split; [done|].
  intros i j sj pi oi Hj Hp Hi.
  pose proof (lookup_lt_Some _ _ _ Hp) as Hip.
  pose proof (lookup_lt_Some _ _ _ Hj) as Hjs.
  rewrite entry_lookup by done.
  apply lookup_map3.
  - by rewrite lookup_repeat_rows.
  - by rewrite lookup_repeat_interleave.
  - by rewrite lookup_repeat_interleave.
Qed.
End ScorerProperties.

(** X2: with no row in [p_emb], [score_emb] returns no result in any
    mode: the expansion ends in [view(0, -1)], which is refused whatever
    the primitive returns. *)
Lemma score_emb_empty_batch {Emb Score : Type}
    (score_emb_spo : list Emb → list Emb → list Emb → result (tensor Score))
    (s o : list Emb) (combine : string) :
  is_Ok (score_emb score_emb_spo s [] o combine) = false.
Proof.
  unfold score_emb. simpl.
  repeat case_decide; simpl;
    repeat match goal with
           | |- context [py_assert ?b] => destruct (py_assert b) as [[]|]; simpl
           | |- context [score_emb_spo ?a ?b ?c] => destruct (score_emb_spo a b c); simpl
           end; done.
Qed.

Lemma score_emb_sp_star_witness :
  ∃ out, score_emb SumScorer.score_emb_spo [[1]; [2]]%Z [[10]; [100]]%Z [[1]; [2]; [3]]%Z "sp*" = Ok out
    ∧ shape out = [2; 3]
    ∧ data out = map3 SumScorer.score_triple
                   (repeat_interleave 3 [[1]; [2]]%Z)
                   (repeat_interleave 3 [[10]; [100]]%Z)
                   (repeat_rows 2 [[1]; [2]; [3]]%Z)
    ∧ ∀ i j si pi oj,
        [[1]; [2]]%Z !! i = Some si → [[10]; [100]]%Z !! i = Some pi →
        [[1]; [2]; [3]]%Z !! j = Some oj →
        entry out i j = Some (SumScorer.score_triple si pi oj).
Proof.
  apply (score_emb_sp_star SumScorer.score_triple SumScorer.score_emb_spo
           sum_scorer_rowwise [[1]; [2]]%Z [[10]; [100]]%Z [[1]; [2]; [3]]%Z).
  - reflexivity.
  - simpl. lia.
Defined.

(** C1 at the failing input: with no pair, [n_s = n_p = 0] holds and the
    announced result is a [0 × 1] matrix, but [score_emb] raises in
    [out.view(0, -1)]; the other empty case, one pair and no object,
    returns its [1 × 0] matrix. *)
Theorem score_emb_sp_star_empty :
  length ([] : list (list Z)) = length ([] : list (list Z))
  ∧ score_emb SumScorer.score_emb_spo [] [] [[3]]%Z "sp*" = Err RuntimeError
  ∧ (¬ ∃ out, score_emb SumScorer.score_emb_spo [] [] [[3]]%Z "sp*" = Ok out
              ∧ shape out = [0; 1])
  ∧ score_emb SumScorer.score_emb_spo [[1]]%Z [[10]]%Z [] "sp*" = Ok (Tensor [1; 0] []).
Proof.
  split; [done|]. split; [done|]. split; [|done].
  intros (out & Hout & _). discriminate Hout.
Qed.

Lemma score_emb_star_po_witness :
  ∃ out, score_emb SumScorer.score_emb_spo [[1]; [2]; [3]]%Z [[10]; [100]]%Z [[3]; [1]]%Z "*po" = Ok out
    ∧ shape out = [2; 3]
    ∧ data out = map3 SumScorer.score_triple
                   (repeat_rows 2 [[1]; [2]; [3]]%Z)
                   (repeat_interleave 3 [[10]; [100]]%Z)
                   (repeat_interleave 3 [[3]; [1]]%Z)
    ∧ ∀ i j sj pi oi,
        [[1]; [2]; [3]]%Z !! j = Some sj → [[10]; [100]]%Z !! i = Some pi →
        [[3]; [1]]%Z !! i = Some oi →
        entry out i j = Some (SumScorer.score_triple sj pi oi).
Proof.
  apply (score_emb_star_po SumScorer.score_triple SumScorer.score_emb_spo
           sum_scorer_rowwise [[1]; [2]; [3]]%Z [[10]; [100]]%Z [[3]; [1]]%Z).
  - reflexivity.
  - simpl. lia.
Defined.

(** C2 at the failing input: with no pair, [n_p = n_o = 0] holds and the
    announced result is a [0 × 1] matrix, but [score_emb] raises in
    [out.view(0, -1)]; the other empty case, one pair and no subject,
    returns its [1 × 0] matrix. *)
Theorem score_emb_star_po_empty :
  length ([] : list (list Z)) = length ([] : list (list Z))
  ∧ score_emb SumScorer.score_emb_spo [[3]]%Z [] [] "*po" = Err RuntimeError
  ∧ (¬ ∃ out, score_emb SumScorer.score_emb_spo [[3]]%Z [] [] "*po" = Ok out
              ∧ shape out = [0; 1])
  ∧ score_emb SumScorer.score_emb_spo [] [[10]]%Z [[1]]%Z "*po" = Ok (Tensor [1; 0] []).
Proof.
  split; [done|]. split; [done|]. split; [|done].
  intros (out & Hout & _). discriminate Hout.
Qed.

(** Every [combine] other than the three modes raises the [ValueError]
    with the constant message. *)
Lemma score_emb_unsupported {Emb Score : Type}
    (score_emb_spo : list Emb → list Emb → list Emb → result (tensor Score))
    (s p o : list Emb) (combine : string) :
  combine ≠ "spo" → combine ≠ "sp*" → combine ≠ "*po" →
  score_emb score_emb_spo s p o combine = Err (ValueError cannot_handle_combine).
Proof.
  intros H1 H2 H3. unfold score_emb.
  by rewrite !decide_False by done.
Qed.

(** C5 at the failing input: the mode ["s*o"] is refused with a
    [ValueError], but the message is the unformatted literal and does not
    name the mode that was passed. *)
Theorem score_emb_unsupported_message {Emb Score : Type}
    (score_emb_spo : list Emb → list Emb → list Emb → result (tensor Score))
    (s p o : list Emb) :
  score_emb score_emb_spo s p o "s*o" = Err (ValueError cannot_handle_combine)
  ∧ occurs "s*o" cannot_handle_combine = false
  ∧ occurs ".format(combine)" cannot_handle_combine = true.
Proof.
  split; [by apply score_emb_unsupported|]. split; reflexivity.
Qed.

(** C6: when the row counts violate the requirement of the mode, the
    assertion fails and no score matrix is returned. *)
Theorem score_emb_row_count_mismatch {Emb Score : Type}
    (score_emb_spo : list Emb → list Emb → list Emb → result (tensor Score))
    (s p o : list Emb) (combine : string) :
  (combine = "spo" ∧ ¬ (length s = length p ∧ length p = length o))
  ∨ (combine = "sp*" ∧ length s ≠ length p)
  ∨ (combine = "*po" ∧ length p ≠ length o) →
  score_emb score_emb_spo s p o combine = Err AssertionError.
Proof.
  intros [[-> H] | [[-> H] | [-> H]]]; unfold score_emb; simpl.
  - destruct (decide (length s = length p)) as [Hs|Hs].
    + rewrite (bool_decide_eq_true_2 _ Hs).
      rewrite bool_decide_eq_false_2; [done|]. intros Ho. apply H. by rewrite Ho.
    + by rewrite (bool_decide_eq_false_2 _ Hs).
  - by rewrite bool_decide_eq_false_2.
  - rewrite bool_decide_eq_false_2; [done|]. intros Ho. by apply H.
Qed.

Lemma score_emb_row_count_mismatch_witness :
  score_emb SumScorer.score_emb_spo [[1]; [2]]%Z [[10]]%Z [[3]]%Z "spo" = Err AssertionError
  ∧ score_emb SumScorer.score_emb_spo [[1]; [2]]%Z [[10]]%Z [[3]]%Z "sp*" = Err AssertionError
  ∧ score_emb SumScorer.score_emb_spo [[1]]%Z [[10]]%Z [[3]; [2]]%Z "*po" = Err AssertionError.
Proof.
  split; [|split].
  - apply score_emb_row_count_mismatch. left. split; [reflexivity|]. simpl. lia.
  - apply score_emb_row_count_mismatch. right. left. split; [reflexivity|]. simpl. lia.
  - apply score_emb_row_count_mismatch. right. right. split; [reflexivity|]. simpl. lia.
Defined.

(** ** Concatenation along dimension 1 *)

Lemma lookup_concat_uniform {A} (rows : list (list A)) (k i j : nat) :
  Forall (λ r, length r = k) rows → j < k →
  concat rows !! (i * k + j) = rows !! i ≫= (.!! j).
Proof.
  intros Hrows Hj. revert i.
  induction Hrows as [|r rows Hr _ IH]; intros i; simpl.
  - by rewrite !lookup_nil.
  - destruct i as [|i]; simpl.
    + by rewrite lookup_app_l by lia.
    + rewrite lookup_app_r by lia.
      replace (k + i * k + j - length r) with (i * k + j) by lia.
      apply IH.
Qed.

Lemma lookup_rows_of {A} (n k : nat) (l : list A) (i : nat) :
  i < n → rows_of n k l !! i = Some (take k (drop (i * k) l)).
Proof.
  intros Hi. unfold rows_of.
  by rewrite list_lookup_fmap, lookup_seq_lt.
Qed.

Lemma length_rows_of {A} (n k : nat) (l : list A) : length (rows_of n k l) = n.
Proof. unfold rows_of. by rewrite length_fmap, length_seq. Qed.

Lemma rows_of_uniform {A} (n k : nat) (l : list A) :
  length l = n * k → Forall (λ r, length r = k) (rows_of n k l).
Proof.
  intros Hl. apply Forall_forall. intros r Hr.
  apply list_elem_of_lookup in Hr as [i Hi].
  pose proof (lookup_lt_Some _ _ _ Hi) as Hlt. rewrite length_rows_of in Hlt.
  rewrite lookup_rows_of in Hi by done. injection Hi as <-.
  rewrite length_take, length_drop. nia.
Qed.

Lemma lookup_row {A} (k : nat) (l : list A) (i j : nat) :
  j < k → take k (drop (i * k) l) !! j = l !! (i * k + j).
Proof. intros Hj. by rewrite lookup_take_lt, lookup_drop. Qed.

Lemma cat_dim1_entries {A} (n k1 k2 : nat) (a b : list A) :
  length a = n * k1 → length b = n * k2 →
  ∃ out, cat_dim1 (Tensor [n; k1] a) (Tensor [n; k2] b) = Ok out
    ∧ shape out = [n; k1 + k2]
    ∧ ∀ i, i < n →
        (∀ j, j < k1 → entry out i j = entry (Tensor [n; k1] a) i j)
        ∧ (∀ j, j < k2 → entry out i (k1 + j) = entry (Tensor [n; k2] b) i j).
Proof.
  intros Ha Hb. unfold cat_dim1. simpl. rewrite decide_True by done.
  eexists; split; [done|]. split; [done|].
  assert (Huniform : Forall (λ r, length r = k1 + k2)
            (zip_with app (rows_of n k1 a) (rows_of n k2 b))).
  { apply Forall_forall. intros r Hr.
    apply elem_of_lookup_zip_with in Hr as (i & ra & rb & -> & Hra & Hrb).
    pose proof (rows_of_uniform n k1 a Ha) as Fa.
    pose proof (rows_of_uniform n k2 b Hb) as Fb.
    rewrite Forall_forall in Fa. rewrite Forall_forall in Fb.
    rewrite length_app.
    rewrite (Fa ra) by (eapply list_elem_of_lookup_2; done).
    rewrite (Fb rb) by (eapply list_elem_of_lookup_2; done). done. }
  assert (Hrow : ∀ i, i < n →
            zip_with app (rows_of n k1 a) (rows_of n k2 b) !! i
            = Some (take k1 (drop (i * k1) a) ++ take k2 (drop (i * k2) b))).
  { intros i Hi. by rewrite lookup_zip_with, !lookup_rows_of. }
  intros i Hi. split; intros j Hj.
  - rewrite !entry_lookup by lia.
    rewrite (lookup_concat_uniform _ _ i j Huniform) by lia.
    rewrite Hrow by done. simpl.
    rewrite lookup_app_l by (rewrite length_take, length_drop; nia).
    by apply lookup_row.
  - rewrite !entry_lookup by lia.
    rewrite (lookup_concat_uniform _ _ i (k1 + j) Huniform) by lia.
    rewrite Hrow by done. simpl.
    assert (Hlen : length (take k1 (drop (i * k1) a)) = k1)
      by (rewrite length_take, length_drop; nia).
    rewrite lookup_app_r by lia. rewrite Hlen.
    replace (k1 + j - k1) with j by lia.
    by apply lookup_row.
Qed.

(** ** KgeModel: the scoring operations *)

Lemma embed_valid {Emb : Type} (self : embedder Emb) (indexes : list Z) :
  valid_indexes self indexes →
  ∃ rows, embed self indexes = Ok rows
    ∧ length rows = length indexes
    ∧ ∀ i index, indexes !! i = Some index →
        rows !! i = embedding_table self !! Z.to_nat index.
Proof.
  induction 1 as [|index indexes Hindex _ (rows & Hrows & Hlen & Hlookup)].
  - exists []. by split_and!.
  - simpl. unfold embed_one.
    rewrite bool_decide_eq_true_2 by done.
    destruct (embedding_table self !! Z.to_nat index) as [row|] eqn:Hrow.
    + simpl. rewrite Hrows. simpl.
      exists (row :: rows). split_and!; [done|by simpl; f_equal|].
      intros [|i] index'; simpl; [by intros [= <-]|apply Hlookup].
    + apply lookup_ge_None in Hrow. lia.
Qed.

Section FacadeProperties.
Context {Emb Score : Type}.
Variable score_triple : Emb → Emb → Emb → Score.
Variable self : KgeModel Emb Score.
Hypothesis scorer_rowwise : rowwise score_triple (_scorer self).

(** What [score_spo] returns on a non-empty batch: the [n × 1] matrix of
    the primitive's scores of the corresponding embedding rows. *)
Lemma score_spo_entries (s p o : list Z) :
  valid_indexes (get_s_embedder self) s →
  valid_indexes (get_p_embedder self) p →
  valid_indexes (get_o_embedder self) o →
  length s = length p → length o = length p → 0 < length p →
  ∃ out, score_spo self s p o = Ok out
    ∧ shape out = [length p; 1]
    ∧ ∀ i si pi oi s_row p_row o_row,
        s !! i = Some si → p !! i = Some pi → o !! i = Some oi →
        embedding_table (get_s_embedder self) !! Z.to_nat si = Some s_row →
        embedding_table (get_p_embedder self) !! Z.to_nat pi = Some p_row →
        embedding_table (get_o_embedder self) !! Z.to_nat oi = Some o_row →
        entry out i 0 = Some (score_triple s_row p_row o_row).
Proof.
  intros Vs Vp Vo Hs Ho Hn. unfold score_spo.
  destruct (embed_valid _ _ Vs) as (s_emb & -> & Ls & Rs).
  destruct (embed_valid _ _ Vp) as (p_emb & -> & Lp & Rp).
  destruct (embed_valid _ _ Vo) as (o_emb & -> & Lo & Ro).
  simpl.
  rewrite (score_emb_spo_eq score_triple) by (done || lia).
  eexists; split; [done|]. simpl. split; [by rewrite Lp|].
  intros i si pi oi s_row p_row o_row Hsi Hpi Hoi Hsr Hpr Hor.
  pose proof (lookup_lt_Some _ _ _ Hpi) as Hi.
  rewrite entry_lookup by lia.
  replace (i * 1 + 0) with i by lia.
  apply lookup_map3.
  - by rewrite (Rs _ _ Hsi).
  - by rewrite (Rp _ _ Hpi).
  - by rewrite (Ro _ _ Hoi).
Qed.

(** The shortcut taken when both roles share an embedder computes what
    the two halves computed independently give. *)
Lemma score_sp_po_refines (s p o : list Z) :
  valid_indexes (get_s_embedder self) s →
  valid_indexes (get_p_embedder self) p →
  valid_indexes (get_o_embedder self) o →
  score_sp_po self s p o = score_sp_po_spec self s p o.
Proof.
  intros Vs Vp Vo. unfold score_sp_po, score_sp_po_spec, score_sp, score_po.
  destruct (embed_valid _ _ Vs) as (s_emb & -> & _).
  destruct (embed_valid _ _ Vp) as (p_emb & -> & _).
  destruct (embed_valid _ _ Vo) as (o_emb & -> & _).
  cbn [mbind result_bind embed_all].
  rewrite decide_True by done.
  cbn [mbind result_bind embed_all].
  destruct (score_emb _ s_emb p_emb _ "sp*") as [sp|e]; [|done].
  by destruct (score_emb _ _ p_emb o_emb "*po").
Qed.

(** X25: for valid index sequences of equal length [n >= 1],
    [score_sp_po] returns an [n × 2E] matrix whose columns
    [0 .. E) are those of [score_sp(s, p)] and whose columns [E .. 2E) are
    those of [score_po(p, o)], both against the whole vocabulary; the path
    that reuses one full-vocabulary batch equals the two halves computed
    independently. *)
Theorem score_sp_po_halves (s p o : list Z) :
  valid_indexes (get_s_embedder self) s →
  valid_indexes (get_p_embedder self) p →
  valid_indexes (get_o_embedder self) o →
  length s = length p → length o = length p → 0 < length p →
  ∃ sp po out,
    score_sp self s p None = Ok sp
    ∧ score_po self p o None = Ok po
    ∧ score_sp_po self s p o = Ok out
    ∧ shape sp = [length p; length (embedding_table (_entity_embedder self))]
    ∧ shape po = [length p; length (embedding_table (_entity_embedder self))]
    ∧ shape out = [length p; 2 * length (embedding_table (_entity_embedder self))]
    ∧ (∀ i j, i < length p → j < length (embedding_table (_entity_embedder self)) →
         entry out i j = entry sp i j
         ∧ entry out i (length (embedding_table (_entity_embedder self)) + j) = entry po i j)
    ∧ score_sp_po self s p o = score_sp_po_spec self s p o.
Proof.
  intros Vs Vp Vo Hs Ho Hn.
  rewrite (score_sp_po_refines s p o Vs Vp Vo).
  unfold score_sp_po_spec, score_sp, score_po.
  destruct (embed_valid _ _ Vs) as (s_emb & -> & Ls & _).
  destruct (embed_valid _ _ Vp) as (p_emb & -> & Lp & _).
  destruct (embed_valid _ _ Vo) as (o_emb & -> & Lo & _).
  simpl. unfold get_s_embedder, get_o_embedder.
  set (all := embedding_table (_entity_embedder self)).
  rewrite (score_emb_sp_star_eq score_triple) by (done || lia).
  rewrite (score_emb_star_po_eq score_triple) by (done || lia).
  simpl. rewrite Lp.
  match goal with
  | |- context [cat_dim1 (Tensor _ ?a) (Tensor _ ?b)] =>
      destruct (cat_dim1_entries (length p) (length all) (length all) a b)
        as (out & Hout & Hshape & Hentries)
  end.
  { rewrite length_map3 by aligned. aligned. }
  { rewrite length_map3 by aligned. aligned. }
  do 2 eexists. exists out. split_and!; try done.
  - rewrite Hshape. do 2 f_equal. lia.
  - intros i j Hi Hj. destruct (Hentries i Hi) as [Hl Hr]. split; auto.
Qed.
End FacadeProperties.

Lemma score_sp_po_halves_witness :
  ∃ sp po out,
    score_sp Scenario.model [0; 2]%Z [1; 0]%Z None = Ok sp
    ∧ score_po Scenario.model [1; 0]%Z [2; 1]%Z None = Ok po
    ∧ score_sp_po Scenario.model [0; 2]%Z [1; 0]%Z [2; 1]%Z = Ok out
    ∧ shape sp = [2; 3]
    ∧ shape po = [2; 3]
    ∧ shape out = [2; 6]
    ∧ (∀ i j, i < 2 → j < 3 →
         entry out i j = entry sp i j ∧ entry out i (3 + j) = entry po i j)
    ∧ score_sp_po Scenario.model [0; 2]%Z [1; 0]%Z [2; 1]%Z
      = score_sp_po_spec Scenario.model [0; 2]%Z [1; 0]%Z [2; 1]%Z.
Proof.
  apply (score_sp_po_halves SumScorer.score_triple Scenario.model
           sum_scorer_rowwise [0; 2]%Z [1; 0]%Z [2; 1]%Z).
  - repeat constructor; simpl; lia.
  - repeat constructor; simpl; lia.
  - repeat constructor; simpl; lia.
  - reflexivity.
  - reflexivity.
  - simpl. lia.
Defined.

(** C3 at the failing input: empty index sequences are valid and of equal
    length 0, and the announced result is a [0 × 6] matrix, but
    [score_sp_po] raises, in the [out.view(0, -1)] of its first call of
    [score_emb]. *)
Theorem score_sp_po_empty :
  valid_indexes (get_s_embedder Scenario.model) []
  ∧ valid_indexes (get_p_embedder Scenario.model) []
  ∧ valid_indexes (get_o_embedder Scenario.model) []
  ∧ score_sp_po Scenario.model [] [] [] = Err RuntimeError
  ∧ score_sp Scenario.model [] [] None = Err RuntimeError
  ∧ ¬ ∃ out, score_sp_po Scenario.model [] [] [] = Ok out ∧ shape out = [0; 6].
Proof.
  split_and!; try by constructor.
  intros (out & Hout & _). discriminate Hout.
Qed.

(** C4 at the failing input: [score_spo([0], [1], [2])] in the scenario
    of the spec returns the score 104 in a tensor of shape [(1, 1)], a
    matrix with one column, where a vector of shape [(1,)] is announced. *)
Theorem score_spo_one_column :
  score_spo Scenario.model [0]%Z [1]%Z [2]%Z = Ok (Tensor [1; 1] [104%Z])
  ∧ shape (Tensor [1; 1] [104%Z]) ≠ [1].
Proof. split; [reflexivity|discriminate]. Qed.

(** The scenario's broadcast query: [score_sp([0], [1])] against the whole
    vocabulary. *)
Example score_sp_scenario :
  score_sp Scenario.model [0]%Z [1]%Z None = Ok (Tensor [1; 3] [102; 103; 104]%Z).
Proof. reflexivity. Qed.

(** ** Strings *)

Lemma append_nil (s : string) : "" +:+ s = s.
Proof. reflexivity. Qed.

Lemma append_cons (x : Ascii.ascii) (a b : string) :
  String x a +:+ b = String x (a +:+ b).
Proof. reflexivity. Qed.

Lemma append_assoc (a b c : string) : (a +:+ b) +:+ c = a +:+ (b +:+ c).
Proof.
  induction a as [|x a IH]; [done|].
  rewrite !append_cons. by f_equal.
Qed.

Lemma length_append (a b : string) :
  String.length (a +:+ b) = String.length a + String.length b.
Proof.
  induction a as [|x a IH]; [done|].
  rewrite append_cons. simpl. by f_equal.
Qed.

Lemma append_inj_suffix (a b s : string) : a +:+ s = b +:+ s → a = b.
Proof.
  revert b. induction a as [|x a IH]; intros [|y b] H.
  - done.
  - apply (f_equal String.length) in H.
    rewrite append_nil, append_cons in H. simpl in H.
    rewrite length_append in H. lia.
  - apply (f_equal String.length) in H.
    rewrite append_nil, append_cons in H. simpl in H.
    rewrite length_append in H. lia.
  - rewrite !append_cons in H. injection H as -> H. f_equal. by apply IH.
Qed.

Lemma invalid_key_message_inj (configuration_key key key' : string) :
  invalid_key_message configuration_key key = invalid_key_message configuration_key key' →
  key = key'.
Proof.
  unfold invalid_key_message. intros H.
  do 3 apply String.app_inj in H.
  by apply append_inj_suffix in H.
Qed.

Lemma strip_prefix_append (p s : string) : strip_prefix p (p +:+ s) = Some s.
Proof.
  induction p as [|x p IH]; [by destruct s|].
  rewrite append_cons. simpl. by rewrite decide_True.
Qed.

Lemma strip_prefix_Some (p s k : string) : strip_prefix p s = Some k → s = p +:+ k.
Proof.
  revert s. induction p as [|x p IH]; intros s H.
  - destruct s; simpl in H; by injection H as <-.
  - destruct s as [|y s]; [done|]. simpl in H. case_decide; [|done]. subst y.
    rewrite append_cons. f_equal. by apply IH.
Qed.

(** ** The configuration store *)

Lemma frames_bind {A B} (c : nat) (m : M A) (f : A → M B) (Q : A → Prop) (R : B → Prop) :
  frames c m Q → (∀ a, Q a → frames c (f a) R) → frames c (m ≫= f) R.
Proof.
  intros Hm Hf h Hc. destruct (Hm h Hc) as [Hstore HQ].
  unfold mbind, M_bind. destruct (m h) as [[a|e] h']; simpl in *.
  - destruct (Hf a (HQ a eq_refl) h') as [Hstore' HR]; [by rewrite Hstore|].
    split; [by rewrite Hstore', Hstore|done].
  - done.
Qed.

Lemma frames_pure {A} (c : nat) (m : M A) :
  (∀ h, (m h).2 = h) → frames c m (λ _, True).
Proof. intros Hm h _. by rewrite Hm. Qed.

Lemma Config_get_store (config : nat) (key : string) h : (Config_get config key h).2 = h.
Proof.
  unfold Config_get, mbind, M_bind, deref. by destruct (h !! config).
Qed.

Lemma frames_Config_set (c config : nat) (key : string) (v : scalar) :
  config ≠ c → frames c (Config_set config key v) (λ _, True).
Proof.
  intros Hne h _. unfold Config_set, mbind, M_bind, deref, lift, assign.
  destruct (h !! config) as [options|]; [|done].
  destruct (options_set options key v); [|done].
  simpl. by rewrite lookup_insert_ne.
Qed.

Lemma frames_Config_clone (c config : nat) :
  frames c (Config_clone config) (λ new, new ≠ c).
Proof.
  intros h Hc. unfold Config_clone, mbind, M_bind, deref, alloc.
  destruct (h !! config) as [options|]; [|done]. simpl.
  assert (fresh (dom h) ≠ c) as Hfresh.
  { intros <-. apply elem_of_dom in Hc. by apply is_fresh in Hc. }
  split; [by rewrite lookup_insert_ne|]. by intros a [= <-].
Qed.

Lemma frames_except_ValueError {A} (c : nat) (body : M A) (e : error) (Q : A → Prop) :
  frames c body Q → frames c (except_ValueError body e) Q.
Proof.
  intros Hbody h Hc. destruct (Hbody h Hc) as [Hstore HQ].
  unfold except_ValueError.
  destruct (body h) as [[a|[]] h']; simpl in *; done.
Qed.

Lemma frames_except_KeyError {A} (c : nat) (body handler : M A) (Q : A → Prop) :
  frames c body Q → frames c handler Q → frames c (except_KeyError body handler) Q.
Proof.
  intros Hbody Hhandler h Hc. destruct (Hbody h Hc) as [Hstore HQ].
  unfold except_KeyError.
  destruct (body h) as [[a|[]] h']; simpl in *; try done.
  destruct (Hhandler h') as [Hstore' HQ']; [by rewrite Hstore|].
  split; [by rewrite Hstore', Hstore|done].
Qed.

Lemma frames_get_option (c : nat) (self : KgeEmbedder) (name : string) :
  frames c (get_option self name) (λ _, True).
Proof.
  apply frames_except_KeyError.
  - apply frames_pure, Config_get_store.
  - apply (frames_bind _ _ _ (λ _, True)); [by apply frames_pure|].
    intros key _. apply frames_pure, Config_get_store.
Qed.

Lemma frames_verify_custom_options (c : nat) (self : KgeEmbedder) (dummy_config : nat)
    (custom_options : list (string * scalar)) :
  dummy_config ≠ c →
  frames c (verify_custom_options self dummy_config custom_options) (λ _, True).
Proof.
  intros Hne. induction custom_options as [|[key v] rest IH]; simpl.
  - by apply frames_pure.
  - apply (frames_bind _ _ _ (λ _, True)); [|by intros].
    apply frames_except_ValueError.
    apply (frames_bind _ _ _ (λ _, True)); [by apply frames_pure|].
    intros k _. by apply frames_Config_set.
Qed.

Lemma frames_KgeEmbedder_init (c config : nat) (configuration_key : string) :
  frames c (KgeEmbedder_init config configuration_key) (λ _, True).
Proof.
  unfold KgeEmbedder_init.
  apply (frames_bind _ _ _ (λ _, True)); [apply frames_pure, Config_get_store|].
  intros embedder_type _.
  apply (frames_bind _ _ _ (λ _, True)); [apply frames_pure, Config_get_store|].
  intros section _.
  apply (frames_bind _ _ _ (λ _, True)); [by apply frames_pure|].
  intros custom_options _.
  apply (frames_bind _ _ _ (λ _, True)); [by apply frames_pure|].
  intros custom_options' _.
  apply (frames_bind _ _ _ (λ new, new ≠ c)); [apply frames_Config_clone|].
  intros dummy_config Hdummy.
  apply (frames_bind _ _ _ (λ _, True)); [by apply frames_verify_custom_options|].
  intros _ _.
  apply (frames_bind _ _ _ (λ _, True)); [apply frames_get_option|].
  intros dim _. by apply frames_pure.
Qed.

(** C9: constructing an embedder leaves the caller's configuration with
    the entries it had before, whether the construction succeeds or fails:
    every [set] goes to the clone. *)
Theorem KgeEmbedder_init_keeps_config (config : nat) (configuration_key : string) (h : store) :
  (KgeEmbedder_init config configuration_key h).2 !! config = h !! config.
Proof.
  destruct (h !! config) as [options|] eqn:Hconfig.
  - rewrite <- Hconfig. by apply frames_KgeEmbedder_init.
  - unfold KgeEmbedder_init, Config_get, mbind, M_bind, deref.
    by rewrite Hconfig.
Qed.

(** ** KgeEmbedder.get_option *)

Lemma options_get_Err (options : list (string * scalar)) (key : string) (e : error) :
  options_get options key = Err e → e = KeyError key.
Proof.
  unfold options_get. destruct (dict_lookup key options); [done|].
  destruct (subtree key options); [by intros [= <-]|done].
Qed.

Lemma Config_get_eq (config : nat) (key : string) (h : store) options :
  h !! config = Some options →
  Config_get config key h = (options_get options key, h).
Proof.
  intros Hconfig. unfold Config_get, mbind, M_bind, deref, lift.
  by rewrite Hconfig.
Qed.

(** C8: [get_option] returns the value of the embedder's own scope when
    that scope defines the option, otherwise the value of the default scope
    of the embedder type, and raises the missing-key error when neither
    scope defines it. *)
Theorem get_option_resolution (self : KgeEmbedder) (name : string) (h : store)
    (options : list (string * scalar)) (t : string) :
  h !! config self = Some options →
  embedder_type self = Leaf (SStr t) →
  (∀ v, options_get options (configuration_key self +:+ "." +:+ name) = Ok v →
        get_option self name h = (Ok v, h))
  ∧ (is_Ok (options_get options (configuration_key self +:+ "." +:+ name)) = false →
     ∀ v, options_get options (t +:+ "." +:+ name) = Ok v →
          get_option self name h = (Ok v, h))
  ∧ (is_Ok (options_get options (configuration_key self +:+ "." +:+ name)) = false →
     is_Ok (options_get options (t +:+ "." +:+ name)) = false →
     get_option self name h = (Err (KeyError (t +:+ "." +:+ name)), h)).
Proof.
  intros Hconfig Htype.
  unfold get_option, except_KeyError.
  rewrite (Config_get_eq _ _ _ _ Hconfig).
  split_and!.
  - by intros v ->.
  - intros Hcustom v Hdefault.
    destruct (options_get options (configuration_key self +:+ "." +:+ name))
      as [?|e] eqn:Hget; [done|].
    apply options_get_Err in Hget as ->.
    unfold mbind, M_bind, lift. rewrite Htype. simpl.
    by rewrite (Config_get_eq _ _ _ _ Hconfig), Hdefault.
  - intros Hcustom Hdefault.
    destruct (options_get options (configuration_key self +:+ "." +:+ name))
      as [?|e] eqn:Hget; [done|].
    apply options_get_Err in Hget as ->.
    unfold mbind, M_bind, lift. rewrite Htype. simpl.
    rewrite (Config_get_eq _ _ _ _ Hconfig).
    destruct (options_get options (t +:+ "." +:+ name)) as [?|e] eqn:Hget; [done|].
    by apply options_get_Err in Hget as ->.
Qed.

(** ** Dictionaries and the type-checked [set] *)

Lemma dict_lookup_subtree (key k : string) (options : list (string * scalar)) (v : scalar) :
  dict_lookup (key +:+ "." +:+ k) options = Some v →
  dict_lookup k (subtree key options) = Some v.
Proof.
  unfold subtree. induction options as [|[k0 v0] options IH]; [done|].
  simpl. case_decide as Hk0.
  - intros [= ->]. subst k0.
    rewrite <- append_assoc, strip_prefix_append. simpl.
    by case_decide.
  - intros Hrest. destruct (strip_prefix (key +:+ ".") k0) as [k'|] eqn:Hstrip; simpl.
    + case_decide as Hk'; [|by apply IH].
      subst k'. apply strip_prefix_Some in Hstrip.
      by rewrite append_assoc in Hstrip.
    + by apply IH.
Qed.

Lemma elem_of_subtree (key k : string) (options : list (string * scalar)) (v : scalar) :
  (k, v) ∈ subtree key options ↔ (key +:+ "." +:+ k, v) ∈ options.
Proof.
  unfold subtree. rewrite list_elem_of_omap. split.
  - intros ([k0 v0] & Hin & Hstrip). simpl in Hstrip.
    destruct (strip_prefix (key +:+ ".") k0) as [k'|] eqn:Hk0; [|done].
    simpl in Hstrip. injection Hstrip as -> ->.
    apply strip_prefix_Some in Hk0. by rewrite Hk0, append_assoc in Hin.
  - intros Hin. exists (key +:+ "." +:+ k, v). split; [done|]. simpl.
    by rewrite <- append_assoc, strip_prefix_append.
Qed.

Lemma dict_lookup_Some_elem_of {V} (k : string) (d : list (string * V)) (v : V) :
  dict_lookup k d = Some v → (k, v) ∈ d.
Proof.
  induction d as [|[k0 v0] d IH]; [done|]. simpl. case_decide.
  - intros [= ->]. subst. by left.
  - intros H'. right. by apply IH.
Qed.

Lemma elem_of_dict_remove {V} (k : string) (d : list (string * V)) (kv : string * V) :
  kv ∈ dict_remove k d ↔ kv.1 ≠ k ∧ kv ∈ d.
Proof. unfold dict_remove. by rewrite list_elem_of_filter. Qed.

Lemma dict_lookup_dict_update {V} (k k' : string) (v : V) (d : list (string * V)) :
  dict_lookup k' (dict_update k v d) =
    if decide (k' = k) then (λ _, v) <$> dict_lookup k d else dict_lookup k' d.
Proof.
  unfold dict_update. induction d as [|[k0 v0] d IH]; simpl.
  - by case_decide.
  - rewrite IH. repeat (case_decide; simplify_eq/=); done.
Qed.

Lemma same_schema_trans (a b c : list (string * scalar)) :
  same_schema a b → same_schema b c → same_schema a c.
Proof. intros Hab Hbc k. by rewrite Hab. Qed.

Lemma options_set_Ok (options : list (string * scalar)) (key : string) (v : scalar) :
  type_of <$> dict_lookup key options = Some (type_of v) →
  ∃ options', options_set options key v = Ok options' ∧ same_schema options' options.
Proof.
  intros Hvalid. unfold options_set.
  destruct (dict_lookup key options) as [current|] eqn:Hcurrent; [|done].
  injection Hvalid as Hvalid. rewrite decide_True by done.
  eexists; split; [done|]. intros k.
  rewrite dict_lookup_dict_update. case_decide as Hk; [|done].
  subst k. rewrite Hcurrent. simpl. by rewrite Hvalid.
Qed.

Lemma options_set_Err (options : list (string * scalar)) (key : string) (v : scalar) :
  type_of <$> dict_lookup key options ≠ Some (type_of v) →
  ∃ msg, options_set options key v = Err (ValueError msg).
Proof.
  intros Hinvalid. unfold options_set.
  destruct (dict_lookup key options) as [current|]; [|by eexists].
  case_decide as Htype; [|by eexists].
  simpl in Hinvalid. by rewrite Htype in Hinvalid.
Qed.

(** ** KgeEmbedder.__init__: verification of the custom options *)

Lemma bind_Ok {A B} (m : M A) (f : A → M B) (h h' : store) (a : A) :
  m h = (Ok a, h') → (m ≫= f) h = f a h'.
Proof. intros Hm. unfold mbind, M_bind. by rewrite Hm. Qed.

Lemma bind_Err {A B} (m : M A) (f : A → M B) (h h' : store) (e : error) :
  m h = (Err e, h') → (m ≫= f) h = (Err e, h').
Proof. intros Hm. unfold mbind, M_bind. by rewrite Hm. Qed.

Lemma verify_step (self : KgeEmbedder) (dummy_config : nat) (t key : string) (v : scalar)
    (h : store) (dummy_options : list (string * scalar)) :
  embedder_type self = Leaf (SStr t) →
  h !! dummy_config = Some dummy_options →
  (k ← lift (py_add_str (embedder_type self) ("." +:+ key)); Config_set dummy_config k v) h =
    match options_set dummy_options (t +:+ "." +:+ key) v with
    | Ok options' => (Ok tt, <[dummy_config := options']> h)
    | Err e => (Err e, h)
    end.
Proof.
  intros Htype Hdummy.
  unfold Config_set, mbind, M_bind, lift, deref, assign.
  rewrite Htype. simpl. rewrite Hdummy.
  by destruct (options_set dummy_options (t +:+ "." +:+ key) v).
Qed.

Lemma verify_custom_options_invalid (self : KgeEmbedder) (dummy_config : nat)
    (options : list (string * scalar)) (t : string)
    (custom_options : list (string * scalar)) :
  embedder_type self = Leaf (SStr t) →
  Exists (λ kv, ¬ valid_option options t kv) custom_options →
  ∀ h dummy_options,
    h !! dummy_config = Some dummy_options →
    same_schema dummy_options options →
    ∃ key v h',
      (key, v) ∈ custom_options
      ∧ ¬ valid_option options t (key, v)
      ∧ verify_custom_options self dummy_config custom_options h
        = (Err (ValueError (invalid_key_message (configuration_key self) key)), h').
Proof.
  intros Htype.
  induction custom_options as [|[key v] rest IH]; intros Hexists h dummy_options Hdummy Hschema.
  - by apply Exists_nil in Hexists.
  - simpl. unfold mbind at 1, M_bind at 1. unfold except_ValueError.
    rewrite (verify_step _ _ _ _ _ _ _ Htype Hdummy).
    destruct (decide (valid_option options t (key, v))) as [Hvalid|Hinvalid].
    + apply Exists_cons in Hexists as [Hhead|Htail]; [by destruct Hhead|].
      unfold valid_option in Hvalid. simpl in Hvalid. rewrite <- Hschema in Hvalid.
      destruct (options_set_Ok _ _ _ Hvalid) as (options' & -> & Hschema').
      destruct (IH Htail (<[dummy_config := options']> h) options')
        as (key' & v' & h' & Hin & Hinvalid & Hverify).
      { by rewrite lookup_insert_eq. }
      { by eapply same_schema_trans. }
      exists key', v', h'. split_and!; [by right|done|done].
    + assert (type_of <$> dict_lookup (t +:+ "." +:+ key) dummy_options ≠ Some (type_of v))
        as Hinvalid' by (rewrite Hschema; exact Hinvalid).
      destruct (options_set_Err _ _ _ Hinvalid') as [msg ->].
      exists key, v, h. split_and!; [by left|done|done].
Qed.







(** The message raised for the scenario's invalid option, written out. *)
Example invalid_option_message :
  (KgeEmbedder_init 1 "m.entity_embedder" Scenario.configs).1
  = Err (ValueError "key m.entity_embedder.dimension invalid or of incorrect type").
Proof. reflexivity. Qed.

Lemma get_option_resolution_witness :
  (∀ v, options_get Scenario.options ("m.entity_embedder" +:+ "." +:+ "dim") = Ok v →
        get_option {| config := 0; configuration_key := "m.entity_embedder";
                      embedder_type := Leaf (SStr "lookup_embedder"); dim := None |}
                   "dim" Scenario.configs = (Ok v, Scenario.configs))
  ∧ (is_Ok (options_get Scenario.options ("m.entity_embedder" +:+ "." +:+ "dim")) = false →
     ∀ v, options_get Scenario.options ("lookup_embedder" +:+ "." +:+ "dim") = Ok v →
          get_option {| config := 0; configuration_key := "m.entity_embedder";
                        embedder_type := Leaf (SStr "lookup_embedder"); dim := None |}
                     "dim" Scenario.configs = (Ok v, Scenario.configs))
  ∧ (is_Ok (options_get Scenario.options ("m.entity_embedder" +:+ "." +:+ "dim")) = false →
     is_Ok (options_get Scenario.options ("lookup_embedder" +:+ "." +:+ "dim")) = false →
     get_option {| config := 0; configuration_key := "m.entity_embedder";
                   embedder_type := Leaf (SStr "lookup_embedder"); dim := None |}
                "dim" Scenario.configs
     = (Err (KeyError ("lookup_embedder" +:+ "." +:+ "dim")), Scenario.configs)).
Proof.
  apply (get_option_resolution
           {| config := 0; configuration_key := "m.entity_embedder";
              embedder_type := Leaf (SStr "lookup_embedder"); dim := None |}
           "dim" Scenario.configs Scenario.options "lookup_embedder").
  - reflexivity.
  - reflexivity.
Defined.

(** ** KgeEmbedder.__init__: the errors it may raise *)

Lemma outcome_bind {A B} (m : M A) (f : A → M B) (Q : A → Prop) (R : B → Prop)
    (E : error → Prop) :
  outcome m Q E → (∀ a, Q a → outcome (f a) R E) → outcome (m ≫= f) R E.
Proof.
  intros Hm Hf h. specialize (Hm h). unfold mbind, M_bind.
  destruct (m h) as [[a|e] h']; simpl in *; [by apply Hf|done].
Qed.

Lemma outcome_Config_get (config : nat) (key configuration_key : string) :
  outcome (Config_get config key) (λ _, True) (invalid_key_error configuration_key).
Proof.
  intros h. unfold Config_get, mbind, M_bind, deref, lift.
  destruct (h !! config) as [options|]; simpl; [|by intros msg].
  destruct (options_get options key) as [v|e] eqn:Hget; [done|].
  apply options_get_Err in Hget as ->. by intros msg.
Qed.

Lemma outcome_get_option (self : KgeEmbedder) (name ck : string) :
  outcome (get_option self name) (λ _, True) (invalid_key_error ck).
Proof.
  intros h. unfold get_option, except_KeyError.
  pose proof (outcome_Config_get (config self)
                (configuration_key self +:+ "." +:+ name) ck h) as Hbody.
  destruct (Config_get _ _ h) as [[v|e] h']; simpl in *; [done|].
  destruct e; try done.
  unfold mbind, M_bind, lift.
  destruct (py_add_str (embedder_type self) ("." +:+ name)) as [k|e] eqn:Hadd; simpl.
  - apply outcome_Config_get.
  - destruct (embedder_type self) as [[]|]; simpl in *; simplify_eq; by intros msg.
Qed.

Lemma outcome_verify_custom_options (self : KgeEmbedder) (dummy_config : nat)
    (custom_options : list (string * scalar)) :
  Forall (λ kv, kv.1 ≠ "type") custom_options →
  outcome (verify_custom_options self dummy_config custom_options)
          (λ _, True) (invalid_key_error (configuration_key self)).
Proof.
  induction 1 as [|[key v] rest Hkey _ IH]; [done|].
  intros h. simpl. unfold mbind at 1, M_bind at 1. unfold except_ValueError.
  destruct ((lift (py_add_str (embedder_type self) ("." +:+ key))
             ≫= λ k, Config_set dummy_config k v) h) as [[[]|e] h1]; simpl.
  - apply IH.
  - destruct e; try (by intros msg').
    intros msg' [= <-]. by exists key.
Qed.

Lemma outcome_KgeEmbedder_init (config : nat) (configuration_key : string) :
  outcome (KgeEmbedder_init config configuration_key)
          (λ _, True) (invalid_key_error configuration_key).
Proof.
  unfold KgeEmbedder_init.
  apply (outcome_bind _ _ (λ _, True)); [apply outcome_Config_get|].
  intros embedder_type _.
  apply (outcome_bind _ _ (λ _, True)); [apply outcome_Config_get|].
  intros section _.
  apply (outcome_bind _ _ (λ _, True)).
  { intros h. unfold lift. simpl. destruct section; simpl; [by intros msg|done]. }
  intros custom_options _.
  apply (outcome_bind _ _ (λ d, Forall (λ kv, kv.1 ≠ "type") d)).
  { intros h. unfold lift, dict_del. simpl.
    destruct (dict_lookup "type" custom_options); simpl; [|by intros msg].
    apply Forall_forall. intros kv Hkv. by apply elem_of_dict_remove in Hkv as [? _]. }
  intros custom_options' Hno_type.
  apply (outcome_bind _ _ (λ _, True)).
  { intros h. unfold Config_clone, mbind, M_bind, deref, alloc.
    destruct (h !! config); simpl; [done|by intros msg]. }
  intros dummy_config _.
  apply (outcome_bind _ _ (λ _, True)).
  { by apply (outcome_verify_custom_options
                {| config := config; configuration_key := configuration_key;
                   embedder_type := embedder_type; dim := None |}). }
  intros _ _.
  apply (outcome_bind _ _ (λ _, True)); [apply outcome_get_option|].
  by intros dim _ h.
Qed.

(** C10: the constructor deletes ["type"] from the custom options before
    the loop that verifies them, so the ["type"] entry is not checked
    against the default schema: the invalid-key error is never raised for
    it, and every [ValueError] of the constructor names another option. *)
Theorem KgeEmbedder_init_type_not_verified (config : nat) (configuration_key : string)
    (h : store) :
  (KgeEmbedder_init config configuration_key h).1
    ≠ Err (ValueError (invalid_key_message configuration_key "type"))
  ∧ ∀ msg, (KgeEmbedder_init config configuration_key h).1 = Err (ValueError msg) →
      ∃ key, key ≠ "type" ∧ msg = invalid_key_message configuration_key key.
Proof.
  pose proof (outcome_KgeEmbedder_init config configuration_key h) as Hinit.
  destruct (KgeEmbedder_init config configuration_key h).1 as [self|e]; simpl in *.
  - done.
  - split.
    + intros [= ->]. destruct (Hinit _ eq_refl) as (key & Hkey & Hmsg).
      by apply invalid_key_message_inj in Hmsg.
    + intros msg [= ->]. by apply Hinit.
Qed.

(** ** KgeEmbedder.__init__: what a constructed embedder looks like *)

Lemma options_get_Ok_subtree (options : list (string * scalar)) (ck name : string) (v : value) :
  options_get options (ck +:+ "." +:+ name) = Ok v →
  ∃ k x, (k, x) ∈ subtree ck options ∧ (k = name ∨ ∃ k', k = name +:+ "." +:+ k').
Proof.
  unfold options_get.
  destruct (dict_lookup (ck +:+ "." +:+ name) options) as [x|] eqn:Hleaf.
  - intros _. exists name, x. split; [|by left].
    by apply elem_of_subtree, dict_lookup_Some_elem_of.
  - destruct (subtree (ck +:+ "." +:+ name) options) as [|[k' x] d] eqn:Hsub; [done|].
    intros _. exists (name +:+ "." +:+ k'), x. split; [|by right; exists k'].
    apply elem_of_subtree.
    assert ((k', x) ∈ subtree (ck +:+ "." +:+ name) options) as Hin
      by (rewrite Hsub; by left).
    apply elem_of_subtree in Hin. by rewrite !append_assoc in Hin.
Qed.

Lemma verify_custom_options_TypeError (self : KgeEmbedder) (dummy_config : nat)
    (custom_options : list (string * scalar)) (h h' : store) :
  (∀ s, py_add_str (embedder_type self) s = Err TypeError) →
  verify_custom_options self dummy_config custom_options h = (Ok tt, h') →
  custom_options = [].
Proof.
  intros Htype. destruct custom_options as [|[key v] rest]; [done|].
  simpl. unfold mbind at 1, M_bind at 1. unfold except_ValueError.
  unfold mbind at 1, M_bind at 1. unfold lift. by rewrite Htype.
Qed.

Lemma get_option_TypeError (self : KgeEmbedder) (name : string) (h h' : store) (v : value) :
  (∀ s, py_add_str (embedder_type self) s = Err TypeError) →
  get_option self name h = (Ok v, h') →
  ∃ options, h !! config self = Some options
    ∧ options_get options (configuration_key self +:+ "." +:+ name) = Ok v.
Proof.
  intros Htype. unfold get_option, except_KeyError.
  unfold Config_get at 1. unfold mbind at 1, M_bind at 1. unfold deref, lift.
  destruct (h !! config self) as [options|]; [|done].
  destruct (options_get options _) as [v'|e] eqn:Hget.
  - intros [= <- <-]. by exists options.
  - apply options_get_Err in Hget as ->.
    unfold mbind, M_bind. by rewrite Htype.
Qed.

(** X15: an embedder returned by the constructor carries the configuration
    and the configuration key it was given, a string as its type, and its
    [dim]: a [type] that is not a string makes the constructor fail. *)
Lemma KgeEmbedder_init_Ok (c : nat) (ck : string) (h h' : store) (self : KgeEmbedder) :
  KgeEmbedder_init c ck h = (Ok self, h') →
  config self = c ∧ configuration_key self = ck
  ∧ (∃ t, embedder_type self = Leaf (SStr t))
  ∧ is_Some (dim self).
Proof.
  unfold KgeEmbedder_init.
  unfold mbind at 1, M_bind at 1.
  destruct (Config_get c (ck +:+ ".type") h) as [[et|?] h1] eqn:Htype; [|done].
  unfold mbind at 1, M_bind at 1.
  destruct (Config_get c ck h1) as [[section|?] h2] eqn:Hsection; [|done].
  unfold mbind at 1, M_bind at 1. unfold lift at 1.
  destruct (Config_flatten section) as [custom|?] eqn:Hflatten; [|done].
  unfold mbind at 1, M_bind at 1. unfold lift at 1.
  destruct (dict_del "type" custom) as [custom'|?] eqn:Hdel; [|done].
  unfold mbind at 1, M_bind at 1.
  destruct (Config_clone c h2) as [[dummy|?] h3] eqn:Hclone; [|done].
  unfold mbind at 1, M_bind at 1.
  destruct (verify_custom_options _ dummy custom' h3) as [[[]|?] h4] eqn:Hverify; [|done].
  unfold mbind at 1, M_bind at 1.
  destruct (get_option _ "dim" h4) as [[d|?] h5] eqn:Hdim; [|done].
  intros [= <- <-]. simpl. split_and!; [done|done| |done].
  destruct et as [[z|f|t|b]|sub]; [| |by exists t| |].
  all: exfalso.
  all: apply verify_custom_options_TypeError in Hverify as Hnil; [|done].
  all: subst custom'; simpl in Hverify; injection Hverify as <-.
  all: apply get_option_TypeError in Hdim as (options & Hoptions & Hget); [|done].
  all: simpl in Hoptions, Hget.
  all: pose proof (Config_get_store c (ck +:+ ".type") h) as Hh1;
       rewrite Htype in Hh1; simpl in Hh1; subst h1.
  all: pose proof (Config_get_store c ck h) as Hh2;
       rewrite Hsection in Hh2; simpl in Hh2; subst h2.
  all: unfold Config_clone, mbind, M_bind, deref, alloc in Hclone.
  all: destruct (h !! c) as [options0|] eqn:Hc; [|done].
  all: injection Hclone as <- <-.
  all: rewrite lookup_insert_ne in Hoptions
         by (intros Heq; apply (is_fresh (dom h)); rewrite Heq; by apply elem_of_dom).
  all: rewrite Hc in Hoptions; injection Hoptions as ->.
  all: rewrite (Config_get_eq _ _ _ _ Hc) in Hsection; injection Hsection as Hsection.
  all: unfold options_get in Hsection.
  all: destruct (dict_lookup ck options); [by simplify_eq|].
  all: destruct (subtree ck options) as [|kv d0] eqn:Hsub; [done|].
  all: injection Hsection as <-; simpl in Hflatten; injection Hflatten as <-.
  all: rewrite <- Hsub in Hdel.
  all: apply options_get_Ok_subtree in Hget as (k & x & Hin & Hk).
  all: unfold dict_del in Hdel; destruct (dict_lookup "type" (subtree ck options)); [|done].
  all: injection Hdel as Hdel.
  all: assert ((k, x) ∈ dict_remove "type" (subtree ck options)) as Hin'
         by (apply elem_of_dict_remove; split; [|done];
             destruct Hk as [->|[k' ->]]; done).
  all: rewrite Hdel in Hin'; by apply elem_of_nil in Hin'.
Qed.

(** * Further properties *)

(** ** RelationalScorer.score_emb: entries of the three modes *)

Lemma sp_star_entry {A B} (f : A → A → A → B) (s p o : list A) (i j : nat) (si pi oj : A) :
  s !! i = Some si → p !! i = Some pi → o !! j = Some oj →
  entry (Tensor [length p; length o]
           (map3 f (repeat_interleave (length o) s)
                   (repeat_interleave (length o) p)
                   (repeat_rows (length p) o))) i j
  = Some (f si pi oj).
Proof.
  intros Hs Hp Ho.
  pose proof (lookup_lt_Some _ _ _ Hp) as Hi.
  pose proof (lookup_lt_Some _ _ _ Ho) as Hj.
  rewrite entry_lookup by done.
  apply lookup_map3.
  - by rewrite lookup_repeat_interleave.
  - by rewrite lookup_repeat_interleave.
  - by rewrite lookup_repeat_rows.
Qed.

Lemma star_po_entry {A B} (f : A → A → A → B) (s p o : list A) (i j : nat) (sj pi oi : A) :
  s !! j = Some sj → p !! i = Some pi → o !! i = Some oi →
  entry (Tensor [length p; length s]
           (map3 f (repeat_rows (length p) s)
                   (repeat_interleave (length s) p)
                   (repeat_interleave (length s) o))) i j
  = Some (f sj pi oi).
Proof.
  intros Hs Hp Ho.
  pose proof (lookup_lt_Some _ _ _ Hp) as Hi.
  pose proof (lookup_lt_Some _ _ _ Hs) as Hj.
  rewrite entry_lookup by done.
  apply lookup_map3.
  - by rewrite lookup_repeat_rows.
  - by rewrite lookup_repeat_interleave.
  - by rewrite lookup_repeat_interleave.
Qed.

Section ScorerModes.
Context {Emb Score : Type}.
Variable score_triple : Emb → Emb → Emb → Score.
Variable score_emb_spo : list Emb → list Emb → list Emb → result (tensor Score).
Hypothesis primitive_rowwise : rowwise score_triple score_emb_spo.

(** X1: with [combine = "spo"] and three batches of [n >= 1] rows,
    [score_emb] returns the [n × 1] matrix whose row [i] holds the
    primitive's score of [(s_i, p_i, o_i)]. *)
Theorem score_emb_spo_mode (s p o : list Emb) :
  length s = length p → length o = length p → 0 < length p →
  ∃ out, score_emb score_emb_spo s p o "spo" = Ok out
    ∧ shape out = [length p; 1]
    ∧ ∀ i si pi oi,
        s !! i = Some si → p !! i = Some pi → o !! i = Some oi →
        entry out i 0 = Some (score_triple si pi oi).
Proof.
  intros Hs Ho Hn.
  rewrite (score_emb_spo_eq score_triple) by done.
  eexists; split_and!; [done|done|].
  intros i si pi oi Hsi Hpi Hoi.
  pose proof (lookup_lt_Some _ _ _ Hpi) as Hi.
  rewrite entry_lookup by lia.
  replace (i * 1 + 0) with i by lia.
  by apply lookup_map3.
Qed.

(** X3: broadcasting agrees with scoring one triple at a time: the entry
    [(i, j)] of the ["sp*"] matrix is what ["spo"] returns for the single
    triple [(s_i, p_i, o_j)], and the entry [(i, j)] of the ["*po"] matrix
    is what it returns for [(s_j, p_i, o_i)]. *)
Theorem score_emb_broadcast_pointwise (s p o : list Emb) (i j : nat) (x y z : Emb) :
  0 < length p →
  (length s = length p → s !! i = Some x → p !! i = Some y → o !! j = Some z →
   ∃ out one,
     score_emb score_emb_spo s p o "sp*" = Ok out
     ∧ score_emb score_emb_spo [x] [y] [z] "spo" = Ok one
     ∧ is_Some (entry out i j)
     ∧ entry out i j = entry one 0 0)
  ∧ (length o = length p → s !! j = Some x → p !! i = Some y → o !! i = Some z →
     ∃ out one,
       score_emb score_emb_spo s p o "*po" = Ok out
       ∧ score_emb score_emb_spo [x] [y] [z] "spo" = Ok one
       ∧ is_Some (entry out i j)
       ∧ entry out i j = entry one 0 0).
Proof.
  intros Hn. split.
  - intros Hs Hx Hy Hz.
    rewrite (score_emb_sp_star_eq score_triple) by done.
    rewrite (score_emb_spo_eq score_triple) by (simpl; done || lia).
    do 2 eexists. split_and!; [done|done| |].
    + by rewrite (sp_star_entry _ _ _ _ _ _ x y z).
    + by rewrite (sp_star_entry _ _ _ _ _ _ x y z).
  - intros Ho Hx Hy Hz.
    rewrite (score_emb_star_po_eq score_triple) by done.
    rewrite (score_emb_spo_eq score_triple) by (simpl; done || lia).
    do 2 eexists. split_and!; [done|done| |].
    + by rewrite (star_po_entry _ _ _ _ _ _ x y z).
    + by rewrite (star_po_entry _ _ _ _ _ _ x y z).
Qed.
End ScorerModes.

Lemma score_emb_spo_mode_witness :
  ∃ out, score_emb SumScorer.score_emb_spo [[1]; [2]]%Z [[10]; [100]]%Z [[3]; [1]]%Z "spo" = Ok out
    ∧ shape out = [2; 1]
    ∧ ∀ i si pi oi,
        [[1]; [2]]%Z !! i = Some si → [[10]; [100]]%Z !! i = Some pi →
        [[3]; [1]]%Z !! i = Some oi →
        entry out i 0 = Some (SumScorer.score_triple si pi oi).
Proof.
  apply (score_emb_spo_mode SumScorer.score_triple SumScorer.score_emb_spo
           sum_scorer_rowwise [[1]; [2]]%Z [[10]; [100]]%Z [[3]; [1]]%Z).
  - reflexivity.
  - reflexivity.
  - simpl. lia.
Defined.

Lemma score_emb_broadcast_pointwise_witness :
  ∃ out one,
    score_emb SumScorer.score_emb_spo [[1]; [2]]%Z [[10]; [100]]%Z [[1]; [2]; [3]]%Z "sp*" = Ok out
    ∧ score_emb SumScorer.score_emb_spo [[2]]%Z [[100]]%Z [[3]]%Z "spo" = Ok one
    ∧ is_Some (entry out 1 2)
    ∧ entry out 1 2 = entry one 0 0.
Proof.
  apply (score_emb_broadcast_pointwise SumScorer.score_triple SumScorer.score_emb_spo
           sum_scorer_rowwise [[1]; [2]]%Z [[10]; [100]]%Z [[1]; [2]; [3]]%Z 1 2
           [2]%Z [100]%Z [3]%Z).
  - simpl. lia.
  - reflexivity.
  - reflexivity.
  - reflexivity.
  - reflexivity.
Defined.

(** ** KgeModel: score_sp and score_po *)

Section FacadeBroadcast.
Context {Emb Score : Type}.
Variable score_triple : Emb → Emb → Emb → Score.
Variable self : KgeModel Emb Score.
Hypothesis scorer_rowwise : rowwise score_triple (_scorer self).

Lemma score_sp_tensor (s p : list Z) (o : option (list Z)) (s_emb p_emb o_emb : list Emb) :
  embed (get_s_embedder self) s = Ok s_emb →
  embed (get_p_embedder self) p = Ok p_emb →
  match o with
  | None => embed_all (get_o_embedder self)
  | Some o => embed (get_o_embedder self) o
  end = Ok o_emb →
  length s_emb = length p_emb → 0 < length p_emb →
  score_sp self s p o =
    Ok (Tensor [length p_emb; length o_emb]
          (map3 score_triple (repeat_interleave (length o_emb) s_emb)
                             (repeat_interleave (length o_emb) p_emb)
                             (repeat_rows (length p_emb) o_emb))).
Proof.
  intros Hs Hp Ho Hlen Hn. unfold score_sp. rewrite Hs, Hp, Ho. simpl.
  by apply score_emb_sp_star_eq.
Qed.

Lemma score_po_tensor (p o : list Z) (s : option (list Z)) (s_emb p_emb o_emb : list Emb) :
  match s with
  | None => embed_all (get_s_embedder self)
  | Some s => embed (get_s_embedder self) s
  end = Ok s_emb →
  embed (get_o_embedder self) o = Ok o_emb →
  embed (get_p_embedder self) p = Ok p_emb →
  length o_emb = length p_emb → 0 < length p_emb →
  score_po self p o s =
    Ok (Tensor [length p_emb; length s_emb]
          (map3 score_triple (repeat_rows (length p_emb) s_emb)
                             (repeat_interleave (length s_emb) p_emb)
                             (repeat_interleave (length s_emb) o_emb))).
Proof.
  intros Hs Ho Hp Hlen Hn. unfold score_po. rewrite Hs, Ho, Hp. simpl.
  by apply score_emb_star_po_eq.
Qed.

(** X4: for valid [s] and [p] of equal length [n >= 1], [score_sp(s, p)]
    is an [n × E] matrix whose entry [(i, j)] is the score of the embedding
    rows of subject [s_i], relation [p_i] and entity [j] as object. *)
Theorem score_sp_entries (s p : list Z) :
  valid_indexes (get_s_embedder self) s →
  valid_indexes (get_p_embedder self) p →
  length s = length p → 0 < length p →
  ∃ out, score_sp self s p None = Ok out
    ∧ shape out = [length p; length (embedding_table (get_o_embedder self))]
    ∧ ∀ i j si pi s_row p_row o_row,
        s !! i = Some si → p !! i = Some pi →
        embedding_table (get_s_embedder self) !! Z.to_nat si = Some s_row →
        embedding_table (get_p_embedder self) !! Z.to_nat pi = Some p_row →
        embedding_table (get_o_embedder self) !! j = Some o_row →
        entry out i j = Some (score_triple s_row p_row o_row).
Proof.
  intros Vs Vp Hlen Hn.
  destruct (embed_valid _ _ Vs) as (s_emb & Hs & Ls & Rs).
  destruct (embed_valid _ _ Vp) as (p_emb & Hp & Lp & Rp).
  rewrite (score_sp_tensor s p None s_emb p_emb _ Hs Hp eq_refl) by lia.
  eexists; split_and!; [done|by simpl; rewrite Lp|].
  intros i j si pi s_row p_row o_row Hsi Hpi Hsr Hpr Hor.
  apply sp_star_entry; [by rewrite (Rs _ _ Hsi)|by rewrite (Rp _ _ Hpi)|done].
Qed.

(** X5: scoring against a list [o] of objects picks columns of the full
    matrix: the entry [(i, j)] of [score_sp(s, p, o)] is the entry
    [(i, o_j)] of [score_sp(s, p)]. *)
Theorem score_sp_subset_columns (s p o : list Z) :
  valid_indexes (get_s_embedder self) s →
  valid_indexes (get_p_embedder self) p →
  valid_indexes (get_o_embedder self) o →
  length s = length p → 0 < length p →
  ∃ sub full,
    score_sp self s p (Some o) = Ok sub
    ∧ score_sp self s p None = Ok full
    ∧ shape sub = [length p; length o]
    ∧ ∀ i j oj, i < length p → o !! j = Some oj →
        is_Some (entry sub i j) ∧ entry sub i j = entry full i (Z.to_nat oj).
Proof.
  intros Vs Vp Vo Hlen Hn.
  destruct (embed_valid _ _ Vs) as (s_emb & Hs & Ls & Rs).
  destruct (embed_valid _ _ Vp) as (p_emb & Hp & Lp & Rp).
  destruct (embed_valid _ _ Vo) as (o_emb & Ho & Lo & Ro).
  rewrite (score_sp_tensor s p (Some o) s_emb p_emb o_emb Hs Hp Ho) by lia.
  rewrite (score_sp_tensor s p None s_emb p_emb _ Hs Hp eq_refl) by lia.
  do 2 eexists; split_and!; [done|done|by simpl; rewrite Lp, Lo|].
  intros i j oj Hi Hoj.
  destruct (lookup_lt_is_Some_2 s_emb i) as [si Hsi]; [lia|].
  destruct (lookup_lt_is_Some_2 p_emb i) as [pi Hpi]; [lia|].
  destruct (lookup_lt_is_Some_2 o_emb j) as [o_row Hor];
    [rewrite Lo; by eapply lookup_lt_Some|].
  pose proof Hor as Hor'. rewrite (Ro _ _ Hoj) in Hor'.
  rewrite (sp_star_entry _ _ _ _ _ _ si pi o_row) by done.
  rewrite (sp_star_entry _ _ _ _ _ _ si pi o_row) by done.
  by split.
Qed.

(** X6: for valid [p] and [o] of equal length [n >= 1], [score_po(p, o)]
    is an [n × E] matrix whose entry [(i, j)] is the score of the embedding
    rows of entity [j] as subject, relation [p_i] and object [o_i]. *)
Theorem score_po_entries (p o : list Z) :
  valid_indexes (get_p_embedder self) p →
  valid_indexes (get_o_embedder self) o →
  length o = length p → 0 < length p →
  ∃ out, score_po self p o None = Ok out
    ∧ shape out = [length p; length (embedding_table (get_s_embedder self))]
    ∧ ∀ i j pi oi s_row p_row o_row,
        p !! i = Some pi → o !! i = Some oi →
        embedding_table (get_s_embedder self) !! j = Some s_row →
        embedding_table (get_p_embedder self) !! Z.to_nat pi = Some p_row →
        embedding_table (get_o_embedder self) !! Z.to_nat oi = Some o_row →
        entry out i j = Some (score_triple s_row p_row o_row).
Proof.
  intros Vp Vo Hlen Hn.
  destruct (embed_valid _ _ Vp) as (p_emb & Hp & Lp & Rp).
  destruct (embed_valid _ _ Vo) as (o_emb & Ho & Lo & Ro).
  rewrite (score_po_tensor p o None _ p_emb o_emb eq_refl Ho Hp) by lia.
  eexists; split_and!; [done|by simpl; rewrite Lp|].
  intros i j pi oi s_row p_row o_row Hpi Hoi Hsr Hpr Hor.
  apply star_po_entry; [done|by rewrite (Rp _ _ Hpi)|by rewrite (Ro _ _ Hoi)].
Qed.

(** X7: scoring against a list [s] of subjects picks columns of the full
    matrix: the entry [(i, j)] of [score_po(p, o, s)] is the entry
    [(i, s_j)] of [score_po(p, o)]. *)
Theorem score_po_subset_columns (s p o : list Z) :
  valid_indexes (get_s_embedder self) s →
  valid_indexes (get_p_embedder self) p →
  valid_indexes (get_o_embedder self) o →
  length o = length p → 0 < length p →
  ∃ sub full,
    score_po self p o (Some s) = Ok sub
    ∧ score_po self p o None = Ok full
    ∧ shape sub = [length p; length s]
    ∧ ∀ i j sj, i < length p → s !! j = Some sj →
        is_Some (entry sub i j) ∧ entry sub i j = entry full i (Z.to_nat sj).
Proof.
  intros Vs Vp Vo Hlen Hn.
  destruct (embed_valid _ _ Vs) as (s_emb & Hs & Ls & Rs).
  destruct (embed_valid _ _ Vp) as (p_emb & Hp & Lp & Rp).
  destruct (embed_valid _ _ Vo) as (o_emb & Ho & Lo & Ro).
  rewrite (score_po_tensor p o (Some s) s_emb p_emb o_emb Hs Ho Hp) by lia.
  rewrite (score_po_tensor p o None _ p_emb o_emb eq_refl Ho Hp) by lia.
  do 2 eexists; split_and!; [done|done|by simpl; rewrite Lp, Ls|].
  intros i j sj Hi Hsj.
  destruct (lookup_lt_is_Some_2 p_emb i) as [pi Hpi]; [lia|].
  destruct (lookup_lt_is_Some_2 o_emb i) as [oi Hoi]; [lia|].
  destruct (lookup_lt_is_Some_2 s_emb j) as [s_row Hsr];
    [rewrite Ls; by eapply lookup_lt_Some|].
  pose proof Hsr as Hsr'. rewrite (Rs _ _ Hsj) in Hsr'.
  rewrite (star_po_entry _ _ _ _ _ _ s_row pi oi) by done.
  rewrite (star_po_entry _ _ _ _ _ _ s_row pi oi) by done.
  by split.
Qed.
End FacadeBroadcast.

(** ** KgeModel: the broadcast and the pointwise paths *)

Lemma valid_indexes_replicate {Emb : Type} (self : embedder Emb) (n j : nat) :
  j < length (embedding_table self) → valid_indexes self (replicate n (Z.of_nat j)).
Proof. intros Hj. apply Forall_replicate. lia. Qed.

Lemma assert_sp_star_fails {Emb Score : Type}
    (score_emb_spo : list Emb → list Emb → list Emb → result (tensor Score))
    (s p o : list Emb) :
  length s ≠ length p → score_emb score_emb_spo s p o "sp*" = Err AssertionError.
Proof. intros H. unfold score_emb. simpl. by rewrite bool_decide_eq_false_2. Qed.

Lemma assert_star_po_fails {Emb Score : Type}
    (score_emb_spo : list Emb → list Emb → list Emb → result (tensor Score))
    (s p o : list Emb) :
  length o ≠ length p → score_emb score_emb_spo s p o "*po" = Err AssertionError.
Proof. intros H. unfold score_emb. simpl. by rewrite bool_decide_eq_false_2. Qed.

Lemma assert_spo_fails {Emb Score : Type}
    (score_emb_spo : list Emb → list Emb → list Emb → result (tensor Score))
    (s p o : list Emb) :
  ¬ (length s = length p ∧ length o = length p) →
  score_emb score_emb_spo s p o "spo" = Err AssertionError.
Proof.
  intros H. unfold score_emb. simpl.
  destruct (decide (length s = length p)) as [Hs|Hs].
  - rewrite (bool_decide_eq_true_2 _ Hs), bool_decide_eq_false_2; [done|tauto].
  - by rewrite (bool_decide_eq_false_2 _ Hs).
Qed.

Section FacadeConsistency.
Context {Emb Score : Type}.
Variable score_triple : Emb → Emb → Emb → Score.
Variable self : KgeModel Emb Score.
Hypothesis scorer_rowwise : rowwise score_triple (_scorer self).

(** X8: column [j] of [score_sp(s, p)] holds what [score_spo] returns when
    every pair is scored with entity [j] as object. *)
Theorem score_sp_column_score_spo (s p : list Z) (j : nat) :
  valid_indexes (get_s_embedder self) s →
  valid_indexes (get_p_embedder self) p →
  length s = length p → 0 < length p →
  j < length (embedding_table (get_o_embedder self)) →
  ∃ full column,
    score_sp self s p None = Ok full
    ∧ score_spo self s p (replicate (length p) (Z.of_nat j)) = Ok column
    ∧ ∀ i, i < length p →
        is_Some (entry full i j) ∧ entry full i j = entry column i 0.
Proof.
  intros Vs Vp Hlen Hn Hj.
  destruct (embed_valid _ _ Vs) as (s_emb & Hs & Ls & Rs).
  destruct (embed_valid _ _ Vp) as (p_emb & Hp & Lp & Rp).
  destruct (embed_valid _ _ (valid_indexes_replicate (get_o_embedder self) (length p) j Hj))
    as (o_emb & Ho & Lo & Ro).
  rewrite length_replicate in Lo.
  rewrite (score_sp_tensor score_triple self scorer_rowwise s p None s_emb p_emb _ Hs Hp eq_refl)
    by lia.
  unfold score_spo. rewrite Hs, Hp, Ho. simpl.
  rewrite (score_emb_spo_eq score_triple) by (done || lia).
  do 2 eexists; split_and!; [done|done|].
  intros i Hi.
  destruct (lookup_lt_is_Some_2 s_emb i) as [si Hsi]; [lia|].
  destruct (lookup_lt_is_Some_2 p_emb i) as [pi Hpi]; [lia|].
  destruct (lookup_lt_is_Some_2 o_emb i) as [o_row Hor]; [lia|].
  pose proof Hor as Hor'.
  rewrite (Ro i (Z.of_nat j)) in Hor' by (by apply lookup_replicate_2).
  rewrite Nat2Z.id in Hor'.
  rewrite (sp_star_entry _ _ _ _ _ _ si pi o_row) by done.
  rewrite entry_lookup by lia. replace (i * 1 + 0) with i by lia.
  rewrite (lookup_map3 _ _ _ _ _ si pi o_row) by done.
  by split.
Qed.

(** X9: column [j] of [score_po(p, o)] holds what [score_spo] returns when
    every pair is scored with entity [j] as subject. *)
Theorem score_po_column_score_spo (p o : list Z) (j : nat) :
  valid_indexes (get_p_embedder self) p →
  valid_indexes (get_o_embedder self) o →
  length o = length p → 0 < length p →
  j < length (embedding_table (get_s_embedder self)) →
  ∃ full column,
    score_po self p o None = Ok full
    ∧ score_spo self (replicate (length p) (Z.of_nat j)) p o = Ok column
    ∧ ∀ i, i < length p →
        is_Some (entry full i j) ∧ entry full i j = entry column i 0.
Proof.
  intros Vp Vo Hlen Hn Hj.
  destruct (embed_valid _ _ Vp) as (p_emb & Hp & Lp & Rp).
  destruct (embed_valid _ _ Vo) as (o_emb & Ho & Lo & Ro).
  destruct (embed_valid _ _ (valid_indexes_replicate (get_s_embedder self) (length p) j Hj))
    as (s_emb & Hs & Ls & Rs).
  rewrite length_replicate in Ls.
  rewrite (score_po_tensor score_triple self scorer_rowwise p o None _ p_emb o_emb eq_refl Ho Hp)
    by lia.
  unfold score_spo. rewrite Hs, Hp, Ho. simpl.
  rewrite (score_emb_spo_eq score_triple) by (done || lia).
  do 2 eexists; split_and!; [done|done|].
  intros i Hi.
  destruct (lookup_lt_is_Some_2 s_emb i) as [s_row Hsr]; [lia|].
  destruct (lookup_lt_is_Some_2 p_emb i) as [pi Hpi]; [lia|].
  destruct (lookup_lt_is_Some_2 o_emb i) as [oi Hoi]; [lia|].
  pose proof Hsr as Hsr'.
  rewrite (Rs i (Z.of_nat j)) in Hsr' by (by apply lookup_replicate_2).
  rewrite Nat2Z.id in Hsr'.
  rewrite (star_po_entry _ _ _ _ _ _ s_row pi oi) by done.
  rewrite entry_lookup by lia. replace (i * 1 + 0) with i by lia.
  rewrite (lookup_map3 _ _ _ _ _ s_row pi oi) by done.
  by split.
Qed.

(** X10: the facade lets the scorer's assertion through: with valid
    indexes whose counts disagree, [score_spo], [score_sp], [score_po] and
    (on a non-empty batch of relations) [score_sp_po] fail with
    [AssertionError]. *)
Theorem facade_row_count_mismatch (s p o : list Z) :
  valid_indexes (get_s_embedder self) s →
  valid_indexes (get_p_embedder self) p →
  valid_indexes (get_o_embedder self) o →
  (¬ (length s = length p ∧ length o = length p) →
   score_spo self s p o = Err AssertionError)
  ∧ (length s ≠ length p → score_sp self s p None = Err AssertionError)
  ∧ (length o ≠ length p → score_po self p o None = Err AssertionError)
  ∧ (0 < length p → ¬ (length s = length p ∧ length o = length p) →
     score_sp_po self s p o = Err AssertionError).
Proof.
  intros Vs Vp Vo.
  destruct (embed_valid _ _ Vs) as (s_emb & Hs & Ls & _).
  destruct (embed_valid _ _ Vp) as (p_emb & Hp & Lp & _).
  destruct (embed_valid _ _ Vo) as (o_emb & Ho & Lo & _).
  split_and!.
  - intros H. unfold score_spo. rewrite Hs, Hp, Ho. simpl.
    apply assert_spo_fails. by rewrite Ls, Lp, Lo.
  - intros H. unfold score_sp. rewrite Hs, Hp. simpl.
    apply assert_sp_star_fails. by rewrite Ls, Lp.
  - intros H. unfold score_po. rewrite Ho, Hp. simpl.
    apply assert_star_po_fails. by rewrite Lo, Lp.
  - intros Hn H. unfold score_sp_po. rewrite Hs, Hp, Ho.
    cbn [mbind result_bind embed_all].
    rewrite decide_True by done. cbn [mbind result_bind embed_all].
    destruct (decide (length s = length p)) as [Hsp|Hsp].
    + rewrite (score_emb_sp_star_eq score_triple) by (done || lia).
      cbn [mbind result_bind].
      rewrite assert_star_po_fails; [done|]. rewrite Lo, Lp. tauto.
    + rewrite assert_sp_star_fails; [done|]. by rewrite Ls, Lp.
Qed.
End FacadeConsistency.

Lemma score_sp_entries_witness :
  ∃ out, score_sp Scenario.model [0; 2]%Z [1; 0]%Z None = Ok out
    ∧ shape out = [2; 3]
    ∧ ∀ i j si pi s_row p_row o_row,
        [0; 2]%Z !! i = Some si → [1; 0]%Z !! i = Some pi →
        [[1]; [2]; [3]]%Z !! Z.to_nat si = Some s_row →
        [[10]; [100]]%Z !! Z.to_nat pi = Some p_row →
        [[1]; [2]; [3]]%Z !! j = Some o_row →
        entry out i j = Some (SumScorer.score_triple s_row p_row o_row).
Proof.
  apply (score_sp_entries SumScorer.score_triple Scenario.model sum_scorer_rowwise
           [0; 2]%Z [1; 0]%Z).
  - repeat constructor; simpl; lia.
  - repeat constructor; simpl; lia.
  - reflexivity.
  - simpl. lia.
Defined.

Lemma score_sp_subset_columns_witness :
  ∃ sub full,
    score_sp Scenario.model [0; 2]%Z [1; 0]%Z (Some [2; 2; 0]%Z) = Ok sub
    ∧ score_sp Scenario.model [0; 2]%Z [1; 0]%Z None = Ok full
    ∧ shape sub = [2; 3]
    ∧ ∀ i j oj, i < 2 → [2; 2; 0]%Z !! j = Some oj →
        is_Some (entry sub i j) ∧ entry sub i j = entry full i (Z.to_nat oj).
Proof.
  apply (score_sp_subset_columns SumScorer.score_triple Scenario.model sum_scorer_rowwise
           [0; 2]%Z [1; 0]%Z [2; 2; 0]%Z).
  - repeat constructor; simpl; lia.
  - repeat constructor; simpl; lia.
  - repeat constructor; simpl; lia.
  - reflexivity.
  - simpl. lia.
Defined.

Lemma score_po_entries_witness :
  ∃ out, score_po Scenario.model [1; 0]%Z [2; 1]%Z None = Ok out
    ∧ shape out = [2; 3]
    ∧ ∀ i j pi oi s_row p_row o_row,
        [1; 0]%Z !! i = Some pi → [2; 1]%Z !! i = Some oi →
        [[1]; [2]; [3]]%Z !! j = Some s_row →
        [[10]; [100]]%Z !! Z.to_nat pi = Some p_row →
        [[1]; [2]; [3]]%Z !! Z.to_nat oi = Some o_row →
        entry out i j = Some (SumScorer.score_triple s_row p_row o_row).
Proof.
  apply (score_po_entries SumScorer.score_triple Scenario.model sum_scorer_rowwise
           [1; 0]%Z [2; 1]%Z).
  - repeat constructor; simpl; lia.
  - repeat constructor; simpl; lia.
  - reflexivity.
  - simpl. lia.
Defined.

Lemma score_po_subset_columns_witness :
  ∃ sub full,
    score_po Scenario.model [1; 0]%Z [2; 1]%Z (Some [2; 0]%Z) = Ok sub
    ∧ score_po Scenario.model [1; 0]%Z [2; 1]%Z None = Ok full
    ∧ shape sub = [2; 2]
    ∧ ∀ i j sj, i < 2 → [2; 0]%Z !! j = Some sj →
        is_Some (entry sub i j) ∧ entry sub i j = entry full i (Z.to_nat sj).
Proof.
  apply (score_po_subset_columns SumScorer.score_triple Scenario.model sum_scorer_rowwise
           [2; 0]%Z [1; 0]%Z [2; 1]%Z).
  - repeat constructor; simpl; lia.
  - repeat constructor; simpl; lia.
  - repeat constructor; simpl; lia.
  - reflexivity.
  - simpl. lia.
Defined.

Lemma score_sp_column_score_spo_witness :
  ∃ full column,
    score_sp Scenario.model [0; 2]%Z [1; 0]%Z None = Ok full
    ∧ score_spo Scenario.model [0; 2]%Z [1; 0]%Z [2; 2]%Z = Ok column
    ∧ ∀ i, i < 2 → is_Some (entry full i 2) ∧ entry full i 2 = entry column i 0.
Proof.
  apply (score_sp_column_score_spo SumScorer.score_triple Scenario.model sum_scorer_rowwise
           [0; 2]%Z [1; 0]%Z 2).
  - repeat constructor; simpl; lia.
  - repeat constructor; simpl; lia.
  - reflexivity.
  - simpl. lia.
  - simpl. lia.
Defined.

Lemma score_po_column_score_spo_witness :
  ∃ full column,
    score_po Scenario.model [1; 0]%Z [2; 1]%Z None = Ok full
    ∧ score_spo Scenario.model [1; 1]%Z [1; 0]%Z [2; 1]%Z = Ok column
    ∧ ∀ i, i < 2 → is_Some (entry full i 1) ∧ entry full i 1 = entry column i 0.
Proof.
  apply (score_po_column_score_spo SumScorer.score_triple Scenario.model sum_scorer_rowwise
           [1; 0]%Z [2; 1]%Z 1).
  - repeat constructor; simpl; lia.
  - repeat constructor; simpl; lia.
  - reflexivity.
  - simpl. lia.
  - simpl. lia.
Defined.

Lemma facade_row_count_mismatch_witness :
  score_spo Scenario.model [0; 2]%Z [1]%Z [2; 1]%Z = Err AssertionError
  ∧ score_sp Scenario.model [0; 2]%Z [1]%Z None = Err AssertionError
  ∧ score_po Scenario.model [1]%Z [2; 1]%Z None = Err AssertionError
  ∧ score_sp_po Scenario.model [0; 2]%Z [1]%Z [2; 1]%Z = Err AssertionError.
Proof.
  destruct (facade_row_count_mismatch SumScorer.score_triple Scenario.model
              sum_scorer_rowwise [0; 2]%Z [1]%Z [2; 1]%Z)
    as (Hspo & Hsp & Hpo & Hsp_po).
  - repeat constructor; simpl; lia.
  - repeat constructor; simpl; lia.
  - repeat constructor; simpl; lia.
  - split_and!.
    + apply Hspo. simpl. lia.
    + apply Hsp. simpl. lia.
    + apply Hpo. simpl. lia.
    + apply Hsp_po; simpl; lia.
Defined.

(** ** KgeEmbedder.__init__: the whole constructor *)

Lemma get_option_eq (self : KgeEmbedder) (name : string) (h : store)
    (options : list (string * scalar)) (t : string) :
  h !! config self = Some options →
  embedder_type self = Leaf (SStr t) →
  get_option self name h = (resolve_option options (configuration_key self) t name, h).
Proof.
  intros Hconfig Htype. unfold get_option, except_KeyError, resolve_option.
  rewrite (Config_get_eq _ _ _ _ Hconfig).
  destruct (options_get options (configuration_key self +:+ "." +:+ name))
    as [v|e] eqn:Hget; [done|].
  apply options_get_Err in Hget as ->.
  unfold mbind, M_bind, lift. rewrite Htype. simpl.
  by rewrite (Config_get_eq _ _ _ _ Hconfig).
Qed.

Lemma verify_custom_options_valid (self : KgeEmbedder) (dummy_config : nat)
    (options : list (string * scalar)) (t : string)
    (custom_options : list (string * scalar)) :
  embedder_type self = Leaf (SStr t) →
  Forall (valid_option options t) custom_options →
  ∀ h dummy_options,
    h !! dummy_config = Some dummy_options →
    same_schema dummy_options options →
    ∃ dummy_options',
      verify_custom_options self dummy_config custom_options h
      = (Ok tt, <[dummy_config := dummy_options']> h)
      ∧ same_schema dummy_options' options.
Proof.
  intros Htype. induction 1 as [|[key v] rest Hvalid _ IH]; intros h dummy_options Hdummy Hschema.
  - exists dummy_options. simpl. unfold mret, M_ret. by rewrite insert_id.
  - simpl. unfold mbind at 1, M_bind at 1. unfold except_ValueError.
    rewrite (verify_step _ _ _ _ _ _ _ Htype Hdummy).
    unfold valid_option in Hvalid. simpl in Hvalid. rewrite <- Hschema in Hvalid.
    destruct (options_set_Ok _ _ _ Hvalid) as (options' & -> & Hschema').
    destruct (IH (<[dummy_config := options']> h) options')
      as (dummy_options' & Hverify & Hschema'').
    { by rewrite lookup_insert_eq. }
    { by eapply same_schema_trans. }
    exists dummy_options'. rewrite Hverify. by rewrite insert_insert_eq.
Qed.

Lemma verify_custom_options_first_invalid (self : KgeEmbedder) (dummy_config : nat)
    (options : list (string * scalar)) (t key : string) (v : scalar)
    (before after : list (string * scalar)) :
  embedder_type self = Leaf (SStr t) →
  Forall (valid_option options t) before →
  ¬ valid_option options t (key, v) →
  ∀ h dummy_options,
    h !! dummy_config = Some dummy_options →
    same_schema dummy_options options →
    ∃ h', verify_custom_options self dummy_config (before ++ (key, v) :: after) h
          = (Err (ValueError (invalid_key_message (configuration_key self) key)), h').
Proof.
  intros Htype Hbefore Hinvalid.
  induction Hbefore as [|[key0 v0] rest Hvalid _ IH]; intros h dummy_options Hdummy Hschema.
  - simpl. unfold mbind at 1, M_bind at 1. unfold except_ValueError.
    rewrite (verify_step _ _ _ _ _ _ _ Htype Hdummy).
    assert (type_of <$> dict_lookup (t +:+ "." +:+ key) dummy_options ≠ Some (type_of v))
      as Hinvalid' by (rewrite Hschema; exact Hinvalid).
    destruct (options_set_Err _ _ _ Hinvalid') as [msg ->]. by eexists.
  - simpl. unfold mbind at 1, M_bind at 1. unfold except_ValueError.
    rewrite (verify_step _ _ _ _ _ _ _ Htype Hdummy).
    unfold valid_option in Hvalid. simpl in Hvalid. rewrite <- Hschema in Hvalid.
    destruct (options_set_Ok _ _ _ Hvalid) as (options' & -> & Hschema').
    apply (IH (<[dummy_config := options']> h) options').
    + by rewrite lookup_insert_eq.
    + by eapply same_schema_trans.
Qed.

(** With the embedder's section in place the constructor gets as far as
    the loop, which runs on the clone. *)
Lemma KgeEmbedder_init_reaches_verify (h : store) (c : nat) (ck : string)
    (options : list (string * scalar)) (t : string) :
  h !! c = Some options →
  dict_lookup ck options = None →
  dict_lookup (ck +:+ ".type") options = Some (SStr t) →
  KgeEmbedder_init c ck h =
    (_ ← verify_custom_options
           {| config := c; configuration_key := ck;
              embedder_type := Leaf (SStr t); dim := None |}
           (fresh (dom h)) (dict_remove "type" (subtree ck options));
     dim ← get_option {| config := c; configuration_key := ck;
                         embedder_type := Leaf (SStr t); dim := None |} "dim";
     mret {| config := c; configuration_key := ck;
             embedder_type := Leaf (SStr t); dim := Some dim |})
      (<[fresh (dom h) := options]> h).
Proof.
  intros Hconfig Hsection Htype.
  assert (dict_lookup "type" (subtree ck options) = Some (SStr t)) as Hcustom_type
    by (by apply dict_lookup_subtree).
  unfold KgeEmbedder_init.
  erewrite bind_Ok; last first.
  { rewrite (Config_get_eq _ _ _ _ Hconfig). unfold options_get. by rewrite Htype. }
  erewrite bind_Ok; last first.
  { rewrite (Config_get_eq _ _ _ _ Hconfig). unfold options_get.
    rewrite Hsection.
    destruct (subtree ck options) as [|kv custom'] eqn:Hcustom; [done|].
    rewrite <- Hcustom. done. }
  erewrite bind_Ok; last done.
  erewrite bind_Ok; last first.
  { unfold lift, dict_del. by rewrite Hcustom_type. }
  erewrite bind_Ok; last first.
  { unfold Config_clone. erewrite bind_Ok; [done|].
    unfold deref. by rewrite Hconfig. }
  done.
Qed.

Lemma fresh_config_ne (h : store) (c : nat) : is_Some (h !! c) → fresh (dom h) ≠ c.
Proof. intros Hc <-. apply elem_of_dom in Hc. by apply is_fresh in Hc. Qed.

(** With every custom option valid, the statements after the base part
    end as the resolution of [dim] does, and add the clone to the store. *)
Lemma KgeEmbedder_init_valid_options (h : store) (c : nat) (ck : string)
    (options : list (string * scalar)) (t : string) :
  h !! c = Some options →
  dict_lookup ck options = None →
  dict_lookup (ck +:+ ".type") options = Some (SStr t) →
  Forall (valid_option options t) (dict_remove "type" (subtree ck options)) →
  ∃ clone,
    same_schema clone options
    ∧ KgeEmbedder_init c ck h =
        (match resolve_option options ck t "dim" with
         | Ok d => Ok {| config := c; configuration_key := ck;
                         embedder_type := Leaf (SStr t); dim := Some d |}
         | Err e => Err e
         end,
         <[fresh (dom h) := clone]> h).
Proof.
  intros Hconfig Hsection Htype Hvalid.
  rewrite (KgeEmbedder_init_reaches_verify h c ck options t) by done.
  destruct (verify_custom_options_valid
              {| config := c; configuration_key := ck;
                 embedder_type := Leaf (SStr t); dim := None |}
              (fresh (dom h)) options t _ eq_refl Hvalid
              (<[fresh (dom h) := options]> h) options)
    as (clone & Hverify & Hschema); [by rewrite lookup_insert_eq|done|].
  rewrite insert_insert_eq in Hverify.
  exists clone. split; [done|].
  erewrite bind_Ok; [|exact Hverify].
  unfold mbind, M_bind.
  erewrite get_option_eq; [|simpl|done].
  2: { rewrite lookup_insert_ne; [done|]. by apply fresh_config_ne. }
  simpl. by destruct (resolve_option options ck t "dim").
Qed.

(** X12: the invalid-key error names the first custom option, in the order
    of the section, that is not valid for the defaults: the options before
    it have passed, the ones after it are not looked at. *)
Theorem KgeEmbedder_init_first_invalid (h : store) (c : nat) (ck : string)
    (options : list (string * scalar)) (t key : string) (v : scalar)
    (before after : list (string * scalar)) :
  h !! c = Some options →
  dict_lookup ck options = None →
  dict_lookup (ck +:+ ".type") options = Some (SStr t) →
  dict_remove "type" (subtree ck options) = before ++ (key, v) :: after →
  Forall (valid_option options t) before →
  ¬ valid_option options t (key, v) →
  ∃ h', KgeEmbedder_init c ck h = (Err (ValueError (invalid_key_message ck key)), h').
Proof.
  intros Hconfig Hsection Htype Hsplit Hbefore Hinvalid.
  rewrite (KgeEmbedder_init_reaches_verify h c ck options t) by done.
  rewrite Hsplit.
  destruct (verify_custom_options_first_invalid
              {| config := c; configuration_key := ck;
                 embedder_type := Leaf (SStr t); dim := None |}
              (fresh (dom h)) options t key v before after eq_refl Hbefore Hinvalid
              (<[fresh (dom h) := options]> h) options)
    as (h' & Hverify); [by rewrite lookup_insert_eq|done|].
  exists h'. by erewrite bind_Err.
Qed.

(** Without a [type] entry the statements after the base part stop at
    the first lookup. *)
Lemma KgeEmbedder_init_missing_type (h : store) (c : nat) (ck : string)
    (options : list (string * scalar)) :
  h !! c = Some options →
  is_Ok (options_get options (ck +:+ ".type")) = false →
  KgeEmbedder_init c ck h = (Err (KeyError (ck +:+ ".type")), h).
Proof.
  intros Hconfig Hmissing. unfold KgeEmbedder_init.
  erewrite bind_Err; [done|].
  rewrite (Config_get_eq _ _ _ _ Hconfig).
  destruct (options_get options (ck +:+ ".type")) as [?|e] eqn:Hget; [done|].
  by apply options_get_Err in Hget as ->.
Qed.

(** The base part of a constructor: a new, empty [meta] dictionary in
    the store, which is otherwise as it was. *)
Lemma KgeBase_init_eq {Torch : Type} (torch_module : Torch) (c : nat) (h : store) :
  KgeBase_init torch_module c h
  = (Ok {| torch_module := torch_module; base_config := c; meta := fresh (dom h) |},
     <[fresh (dom h) := []]> h).
Proof. reflexivity. Qed.

Lemma lookup_after_KgeBase_init (h : store) (c : nat) (options : list (string * scalar)) :
  h !! c = Some options → <[fresh (dom h) := []]> h !! c = Some options.
Proof.
  intros Hconfig. rewrite lookup_insert_ne; [done|]. by apply fresh_config_ne.
Qed.

(** X11: when the embedder's section has a string [type] and every other
    custom option is valid for the defaults of that type, the whole
    constructor, base part included, ends as the resolution of [dim] does:
    it returns the object with its new [meta] dictionary and the [dim] of
    its own scope or else of the defaults, or raises the missing-key error
    of that lookup. The store gains two objects: the empty [meta]
    dictionary, and after it the clone; the configuration is as it was. *)
Theorem KgeEmbedder_construct_valid_options {Torch : Type} (torch_module : Torch)
    (h : store) (c : nat) (ck : string) (options : list (string * scalar)) (t : string) :
  h !! c = Some options →
  dict_lookup ck options = None →
  dict_lookup (ck +:+ ".type") options = Some (SStr t) →
  Forall (valid_option options t) (dict_remove "type" (subtree ck options)) →
  ∃ clone,
    same_schema clone options
    ∧ fresh (dom (<[fresh (dom h) := []]> h)) ≠ fresh (dom h)
    ∧ fresh (dom (<[fresh (dom h) := []]> h)) ≠ c
    ∧ KgeEmbedder_construct torch_module c ck h =
        (match resolve_option options ck t "dim" with
         | Ok d => Ok ({| torch_module := torch_module; base_config := c;
                          meta := fresh (dom h) |},
                       {| config := c; configuration_key := ck;
                          embedder_type := Leaf (SStr t); dim := Some d |})
         | Err e => Err e
         end,
         <[fresh (dom (<[fresh (dom h) := []]> h)) := clone]> (<[fresh (dom h) := []]> h)).
Proof.
  intros Hconfig Hsection Htype Hvalid.
  pose proof (lookup_after_KgeBase_init h c options Hconfig) as Hconfig1.
  destruct (KgeEmbedder_init_valid_options (<[fresh (dom h) := []]> h) c ck options t
              Hconfig1 Hsection Htype Hvalid) as (clone & Hschema & Hinit).
  exists clone. split; [done|]. split.
  { apply fresh_config_ne. rewrite lookup_insert_eq. by eexists. }
  split.
  { apply fresh_config_ne. by eexists. }
  unfold KgeEmbedder_construct.
  erewrite bind_Ok; [|apply KgeBase_init_eq].
  unfold mbind, M_bind. rewrite Hinit.
  by destruct (resolve_option options ck t "dim").
Qed.

(** X13: without a [type] entry below the configuration key the whole
    constructor raises a [KeyError], that of the lookup of [type]. The
    base part has run by then: the store has gained the empty [meta]
    dictionary of the object under construction, and nothing else; no
    clone is made. *)
Theorem KgeEmbedder_construct_missing_type {Torch : Type} (torch_module : Torch)
    (h : store) (c : nat) (ck : string) (options : list (string * scalar)) :
  h !! c = Some options →
  is_Ok (options_get options (ck +:+ ".type")) = false →
  ∃ key,
    Config_get c (ck +:+ ".type") h = (Err (KeyError key), h)
    ∧ KgeEmbedder_construct torch_module c ck h
      = (Err (KeyError key), <[fresh (dom h) := []]> h).
Proof.
  intros Hconfig Hmissing. exists (ck +:+ ".type"). split.
  - rewrite (Config_get_eq _ _ _ _ Hconfig).
    destruct (options_get options (ck +:+ ".type")) as [?|e] eqn:Hget; [done|].
    by apply options_get_Err in Hget as ->.
  - unfold KgeEmbedder_construct.
    erewrite bind_Ok; [|apply KgeBase_init_eq].
    erewrite bind_Err; [done|].
    apply (KgeEmbedder_init_missing_type _ _ _ options); [|done].
    by apply lookup_after_KgeBase_init.
Qed.

(** X26: the whole constructor, base part included, raises the invalid-key
    [ValueError] when the section has a custom option other than [type]
    that is not valid for the defaults of the embedder type: the message
    is that of an offending option of the section. In the store it leaves,
    the configuration is as it was and the [meta] dictionary of the
    object under construction is there, empty. *)
Theorem KgeEmbedder_construct_invalid_option {Torch : Type} (torch_module : Torch)
    (h : store) (c : nat) (ck : string) (options : list (string * scalar)) (t : string) :
  h !! c = Some options →
  dict_lookup ck options = None →
  dict_lookup (ck +:+ ".type") options = Some (SStr t) →
  Exists (λ kv, kv.1 ≠ "type" ∧ ¬ valid_option options t kv) (subtree ck options) →
  ∃ key v h',
    (key, v) ∈ subtree ck options
    ∧ key ≠ "type"
    ∧ ¬ valid_option options t (key, v)
    ∧ KgeEmbedder_construct torch_module c ck h
      = (Err (ValueError ("key " +:+ ck +:+ "." +:+ key
                          +:+ " invalid or of incorrect type")), h')
    ∧ h' !! c = Some options
    ∧ h' !! fresh (dom h) = Some [].
Proof.
  intros Hconfig Hsection Htype Hexists.
  pose proof (lookup_after_KgeBase_init h c options Hconfig) as Hconfig1.
  set (h1 := <[fresh (dom h) := []]> h) in *.
  set (self := {| config := c; configuration_key := ck;
                  embedder_type := Leaf (SStr t); dim := None |}).
  destruct (verify_custom_options_invalid self (fresh (dom h1)) options t
              (dict_remove "type" (subtree ck options)) eq_refl)
    with (h := <[fresh (dom h1) := options]> h1) (dummy_options := options)
    as (key & v & h' & Hin & Hinvalid & Hverify).
  { apply Exists_exists in Hexists as (kv & Hkv & Hne & Hbad).
    apply Exists_exists. exists kv. split; [|done].
    by apply elem_of_dict_remove. }
  { by rewrite lookup_insert_eq. }
  { done. }
  apply elem_of_dict_remove in Hin as [Hne Hin]. simpl in Hne.
  assert (KgeEmbedder_init c ck h1
          = (Err (ValueError ("key " +:+ ck +:+ "." +:+ key
                              +:+ " invalid or of incorrect type")), h')) as Hinit.
  { rewrite (KgeEmbedder_init_reaches_verify h1 c ck options t) by done.
    erewrite bind_Err; [done|]. exact Hverify. }
  exists key, v, h'. split_and!; try done.
  - unfold KgeEmbedder_construct.
    erewrite bind_Ok; [|apply KgeBase_init_eq].
    by erewrite bind_Err.
  - destruct (frames_KgeEmbedder_init c c ck h1) as [Hframe _]; [by eexists|].
    rewrite Hinit in Hframe. simpl in Hframe. by rewrite Hframe.
  - destruct (frames_KgeEmbedder_init (fresh (dom h)) c ck h1) as [Hframe _].
    { unfold h1. rewrite lookup_insert_eq. by eexists. }
    rewrite Hinit in Hframe. simpl in Hframe. rewrite Hframe.
    unfold h1. by rewrite lookup_insert_eq.
Qed.

(** X14: [get_option] only reads: it returns with the store it was
    called in, whatever it returns or raises. *)
Theorem get_option_reads_only (self : KgeEmbedder) (name : string) (h : store) :
  (get_option self name h).2 = h.
Proof.
  unfold get_option, except_KeyError.
  pose proof (Config_get_store (config self) (configuration_key self +:+ "." +:+ name) h) as H1.
  destruct (Config_get _ _ h) as [[v|e] h1]; simpl in H1; subst h1; [done|].
  destruct e; try done.
  unfold mbind, M_bind, lift.
  destruct (py_add_str (embedder_type self) ("." +:+ name)); [|done].
  apply Config_get_store.
Qed.

Lemma KgeEmbedder_construct_valid_options_witness :
  ∃ clone,
    same_schema clone Scenario.options
    ∧ fresh (dom (<[fresh (dom Scenario.configs) := []]> Scenario.configs))
      ≠ fresh (dom Scenario.configs)
    ∧ fresh (dom (<[fresh (dom Scenario.configs) := []]> Scenario.configs)) ≠ 0
    ∧ KgeEmbedder_construct tt 0 "m.entity_embedder" Scenario.configs =
        (match resolve_option Scenario.options "m.entity_embedder" "lookup_embedder" "dim" with
         | Ok d => Ok ({| torch_module := tt; base_config := 0;
                          meta := fresh (dom Scenario.configs) |},
                       {| config := 0; configuration_key := "m.entity_embedder";
                          embedder_type := Leaf (SStr "lookup_embedder"); dim := Some d |})
         | Err e => Err e
         end,
         <[fresh (dom (<[fresh (dom Scenario.configs) := []]> Scenario.configs)) := clone]>
           (<[fresh (dom Scenario.configs) := []]> Scenario.configs)).
Proof.
  apply (KgeEmbedder_construct_valid_options tt Scenario.configs 0 "m.entity_embedder"
           Scenario.options "lookup_embedder").
  - reflexivity.
  - reflexivity.
  - reflexivity.
  - vm_compute. repeat constructor.
Defined.

Lemma KgeEmbedder_construct_missing_type_witness :
  ∃ key,
    Config_get 0 ("m.relation_embedder" +:+ ".type") Scenario.configs
    = (Err (KeyError key), Scenario.configs)
    ∧ KgeEmbedder_construct tt 0 "m.relation_embedder" Scenario.configs
      = (Err (KeyError key), <[fresh (dom Scenario.configs) := []]> Scenario.configs).
Proof.
  apply (KgeEmbedder_construct_missing_type tt Scenario.configs 0 "m.relation_embedder"
           Scenario.options).
  - reflexivity.
  - reflexivity.
Defined.

Lemma KgeEmbedder_construct_invalid_option_witness :
  ∃ key v h',
    (key, v) ∈ subtree "m.entity_embedder" Scenario.bad_options
    ∧ key ≠ "type"
    ∧ ¬ valid_option Scenario.bad_options "lookup_embedder" (key, v)
    ∧ KgeEmbedder_construct tt 1 "m.entity_embedder" Scenario.configs
      = (Err (ValueError ("key " +:+ "m.entity_embedder" +:+ "." +:+ key
                          +:+ " invalid or of incorrect type")), h')
    ∧ h' !! 1 = Some Scenario.bad_options
    ∧ h' !! fresh (dom Scenario.configs) = Some [].
Proof.
  apply (KgeEmbedder_construct_invalid_option tt Scenario.configs 1 "m.entity_embedder"
           Scenario.bad_options "lookup_embedder").
  - reflexivity.
  - reflexivity.
  - reflexivity.
  - apply Exists_exists. exists ("dimension", SInt 1). split.
    + vm_compute. do 2 right. left.
    + split; [discriminate|]. vm_compute. discriminate.
Defined.

(** The constructor run on the scenario: the [meta] dictionary is the
    third object of the store and the clone the fourth, with the custom
    [dim] the loop has set in it. *)
Example KgeEmbedder_construct_scenario :
  ∃ h',
    KgeEmbedder_construct tt 0 "m.entity_embedder" Scenario.configs
    = (Ok ({| torch_module := tt; base_config := 0; meta := 2 |},
           {| config := 0; configuration_key := "m.entity_embedder";
              embedder_type := Leaf (SStr "lookup_embedder");
              dim := Some (Leaf (SInt 1)) |}), h')
    ∧ h' !! 0 = Some Scenario.options
    ∧ h' !! 1 = Some Scenario.bad_options
    ∧ h' !! 2 = Some []
    ∧ h' !! 3 = Some (dict_update "lookup_embedder.dim" (SInt 1) Scenario.options)
    ∧ h' !! 4 = None.
Proof. eexists. repeat split; reflexivity. Qed.

Lemma KgeEmbedder_init_first_invalid_witness :
  ∃ h', KgeEmbedder_init 1 "m.entity_embedder" Scenario.configs
        = (Err (ValueError (invalid_key_message "m.entity_embedder" "dimension")), h').
Proof.
  apply (KgeEmbedder_init_first_invalid Scenario.configs 1 "m.entity_embedder"
           Scenario.bad_options "lookup_embedder" "dimension" (SInt 1)
           [("dim", SInt 1)] []).
  - reflexivity.
  - reflexivity.
  - reflexivity.
  - reflexivity.
  - vm_compute. repeat constructor.
  - vm_compute. discriminate.
Defined.

Lemma KgeEmbedder_init_Ok_witness :
  config {| config := 0; configuration_key := "m.entity_embedder";
            embedder_type := Leaf (SStr "lookup_embedder"); dim := Some (Leaf (SInt 1)) |} = 0
  ∧ configuration_key
      {| config := 0; configuration_key := "m.entity_embedder";
         embedder_type := Leaf (SStr "lookup_embedder"); dim := Some (Leaf (SInt 1)) |}
    = "m.entity_embedder"
  ∧ (∃ t, embedder_type
            {| config := 0; configuration_key := "m.entity_embedder";
               embedder_type := Leaf (SStr "lookup_embedder"); dim := Some (Leaf (SInt 1)) |}
          = Leaf (SStr t))
  ∧ is_Some (dim {| config := 0; configuration_key := "m.entity_embedder";
                    embedder_type := Leaf (SStr "lookup_embedder");
                    dim := Some (Leaf (SInt 1)) |}).
Proof.
  apply (KgeEmbedder_init_Ok 0 "m.entity_embedder" Scenario.configs
           (KgeEmbedder_init 0 "m.entity_embedder" Scenario.configs).2).
  vm_compute. reflexivity.
Defined.

(** ** KgeEmbedder.check_option *)

Section CheckOptionProperties.
Variable Config_check : nat → string → list value → M bool.

(** X16: [check_option] has [Config.check] look at the key that
    [get_option] reads first: the key of the embedder's own scope when that
    scope defines the option, the key of the scope of the embedder type in
    every other case, also when that scope has no such key. *)
Theorem check_option_key (self : KgeEmbedder) (name : string) (allowed_values : list value)
    (h : store) (options : list (string * scalar)) (t : string) :
  h !! config self = Some options →
  embedder_type self = Leaf (SStr t) →
  check_option Config_check self name allowed_values h =
    Config_check (config self)
      (if is_Ok (options_get options (configuration_key self +:+ "." +:+ name))
       then configuration_key self +:+ "." +:+ name
       else t +:+ "." +:+ name)
      allowed_values h.
Proof.
  intros Hconfig Htype. unfold check_option.
  unfold mbind at 1, M_bind at 1. unfold except_KeyError.
  unfold mbind at 1, M_bind at 1.
  rewrite (Config_get_eq _ _ _ _ Hconfig).
  destruct (options_get options (configuration_key self +:+ "." +:+ name))
    as [v|e] eqn:Hget; simpl; [done|].
  apply options_get_Err in Hget as ->.
  unfold lift. by rewrite Htype.
Qed.
End CheckOptionProperties.

Lemma check_option_key_witness :
  check_option Classes.Config_check
    {| config := 0; configuration_key := "m.entity_embedder";
       embedder_type := Leaf (SStr "lookup_embedder"); dim := None |}
    "sparse" [] Scenario.configs
  = Classes.Config_check 0
      (if is_Ok (options_get Scenario.options ("m.entity_embedder" +:+ "." +:+ "sparse"))
       then "m.entity_embedder" +:+ "." +:+ "sparse"
       else "lookup_embedder" +:+ "." +:+ "sparse")
      [] Scenario.configs.
Proof.
  apply (check_option_key Classes.Config_check
           {| config := 0; configuration_key := "m.entity_embedder";
              embedder_type := Leaf (SStr "lookup_embedder"); dim := None |}
           "sparse" [] Scenario.configs Scenario.options "lookup_embedder").
  - reflexivity.
  - reflexivity.
Defined.

(** ** The factory methods *)

Section FactoryProperties.
Context {Embedder Model : Type}.
Variable embedder_classes : string → option (nat → Dataset → string → nat → F Embedder).
Variable model_classes : string → option (nat → Dataset → F Model).
Variable to : Model → value → completion Model.

Lemma create_names (h : store) (c : nat) (key suffix : string)
    (options : list (string * scalar)) :
  h !! c = Some options →
  (name ← Config_get c key;
   name ← lift (as_str name);
   class_name ← Config_get c (name +:+ suffix);
   mret (name, class_name)) h =
  ((name ← options_get options key;
    name ← as_str name;
    class_name ← options_get options (name +:+ suffix);
    Ok (name, class_name)), h).
Proof.
  intros Hconfig. unfold mbind at 1, M_bind at 1.
  rewrite (Config_get_eq _ _ _ _ Hconfig).
  destruct (options_get options key) as [v|e]; [|done]. simpl.
  unfold mbind at 1, M_bind at 1. unfold lift.
  destruct (as_str v) as [name|e]; [|done]. simpl.
  unfold mbind at 1, M_bind at 1.
  rewrite (Config_get_eq _ _ _ _ Hconfig).
  by destruct (options_get options (name +:+ suffix)).
Qed.

(** X17: [KgeEmbedder.create] reports every failure of its two lookups
    with the same [Exception], whose message names [<key>.type]: when the
    type is absent, when it is not a string, and also when the type is
    there and it is the [class_name] of the type that is absent. The store
    is left as it is. *)
Theorem KgeEmbedder_create_lookup_failure (h : store) (c : nat) (dataset : Dataset)
    (ck : string) (vocab_size : nat) (options : list (string * scalar)) :
  h !! c = Some options →
  is_Ok (options_get options (ck +:+ ".type")) = false
  ∨ (∃ v, options_get options (ck +:+ ".type") = Ok v ∧ is_Ok (as_str v) = false)
  ∨ (∃ t, options_get options (ck +:+ ".type") = Ok (Leaf (SStr t))
          ∧ is_Ok (options_get options (t +:+ ".class_name")) = false) →
  KgeEmbedder_create embedder_classes c dataset ck vocab_size h
  = (Raised (Exception (cannot_find_type ck)), h).
Proof.
  intros Hconfig Hfail. unfold KgeEmbedder_create.
  rewrite (create_names h c _ _ options Hconfig).
  destruct Hfail as [Htype | [(v & -> & Hstr) | (t & -> & Hclass)]]; simpl.
  - by destruct (options_get options (ck +:+ ".type")).
  - by destruct (as_str v).
  - by destruct (options_get options (t +:+ ".class_name")).
Qed.

(** X18: once the type and its [class_name] are found, a class that
    [kge.model] does not have makes [KgeEmbedder.create] raise
    [AttributeError]; the [ValueError] that says the class cannot be found
    is raised only when calling the class raises [ImportError], and every
    other outcome of the class is passed on unchanged. *)
Theorem KgeEmbedder_create_class (h : store) (c : nat) (dataset : Dataset)
    (ck : string) (vocab_size : nat) (options : list (string * scalar))
    (t class_name : string) :
  h !! c = Some options →
  options_get options (ck +:+ ".type") = Ok (Leaf (SStr t)) →
  options_get options (t +:+ ".class_name") = Ok (Leaf (SStr class_name)) →
  (embedder_classes class_name = None →
   KgeEmbedder_create embedder_classes c dataset ck vocab_size h
   = (Raised (Builtin AttributeError), h))
  ∧ (∀ cls h',
       embedder_classes class_name = Some cls →
       cls c dataset ck vocab_size h = (Raised ImportError, h') →
       KgeEmbedder_create embedder_classes c dataset ck vocab_size h
       = (Raised (Builtin (ValueError (cannot_find_class class_name "embedder" t))), h'))
  ∧ (∀ cls outcome h',
       embedder_classes class_name = Some cls →
       cls c dataset ck vocab_size h = (outcome, h') →
       outcome ≠ Raised ImportError →
       KgeEmbedder_create embedder_classes c dataset ck vocab_size h = (outcome, h')).
Proof.
  intros Hconfig Htype Hclass. unfold KgeEmbedder_create.
  rewrite (create_names h c _ _ options Hconfig).
  rewrite Htype. simpl. rewrite Hclass. simpl.
  unfold except_ImportError, getattr_call.
  split_and!.
  - by intros ->.
  - intros cls h' -> Hcall. simpl. by rewrite Hcall.
  - intros cls outcome h' -> Hcall Houtcome. simpl. rewrite Hcall.
    by destruct outcome as [?|[]].
Qed.

(** X19: errors of the lookups in [KgeModel.create] are not wrapped: a
    missing [model] key or a missing [class_name] of the model is the
    [KeyError] of that key and no class is called; a missing [job.device]
    is a [KeyError] raised after the model has been built. *)
Theorem KgeModel_create_missing_key (h : store) (c : nat) (dataset : Dataset)
    (options : list (string * scalar)) :
  h !! c = Some options →
  (is_Ok (options_get options "model") = false →
   KgeModel_create model_classes to c dataset h = (Raised (Builtin (KeyError "model")), h))
  ∧ (∀ m, options_get options "model" = Ok (Leaf (SStr m)) →
          is_Ok (options_get options (m +:+ ".class_name")) = false →
          KgeModel_create model_classes to c dataset h
          = (Raised (Builtin (KeyError (m +:+ ".class_name"))), h))
  ∧ (∀ m class_name cls model h' options',
       options_get options "model" = Ok (Leaf (SStr m)) →
       options_get options (m +:+ ".class_name") = Ok (Leaf (SStr class_name)) →
       model_classes class_name = Some cls →
       cls c dataset h = (Returned model, h') →
       h' !! c = Some options' →
       is_Ok (options_get options' "job.device") = false →
       KgeModel_create model_classes to c dataset h
       = (Raised (Builtin (KeyError "job.device")), h')).
Proof.
  intros Hconfig. unfold KgeModel_create.
  rewrite (create_names h c _ _ options Hconfig).
  split_and!.
  - intros Hmodel.
    destruct (options_get options "model") as [?|e] eqn:Hget; [done|].
    by apply options_get_Err in Hget as ->.
  - intros m -> Hclass. simpl.
    destruct (options_get options (m +:+ ".class_name")) as [?|e] eqn:Hget; [done|].
    by apply options_get_Err in Hget as ->.
  - intros m class_name cls model h' options' -> Hclass Hcls Hcall Hconfig' Hdevice.
    simpl. rewrite Hclass. simpl.
    unfold except_ImportError, getattr_call. rewrite Hcls. simpl. rewrite Hcall.
    rewrite (Config_get_eq _ _ _ _ Hconfig').
    destruct (options_get options' "job.device") as [?|e] eqn:Hget; [done|].
    by apply options_get_Err in Hget as ->.
Qed.
End FactoryProperties.


Lemma KgeEmbedder_create_lookup_failure_witness :
  KgeEmbedder_create Classes.embedder_classes 0 Classes.dataset "m.relation_embedder" 2
    Scenario.configs
  = (Raised (Exception (cannot_find_type "m.relation_embedder")), Scenario.configs).
Proof.
  apply (KgeEmbedder_create_lookup_failure Classes.embedder_classes Scenario.configs 0
           Classes.dataset "m.relation_embedder" 2 Scenario.options).
  - reflexivity.
  - left. reflexivity.
Defined.

Lemma KgeEmbedder_create_class_witness :
  KgeEmbedder_create Classes.embedder_classes 0 Classes.dataset "m.entity_embedder" 3
    Scenario.configs
  = (Returned {| config := 0; configuration_key := "m.entity_embedder";
                 embedder_type := Leaf (SStr "lookup_embedder");
                 dim := Some (Leaf (SInt 1)) |},
     (KgeEmbedder_init 0 "m.entity_embedder" Scenario.configs).2).
Proof.
  destruct (KgeEmbedder_create_class Classes.embedder_classes Scenario.configs 0
              Classes.dataset "m.entity_embedder" 3 Scenario.options
              "lookup_embedder" "LookupEmbedder") as (_ & _ & Hpass).
  - reflexivity.
  - reflexivity.
  - reflexivity.
  - eapply Hpass.
    + reflexivity.
    + vm_compute. reflexivity.
    + discriminate.
Defined.

Lemma KgeModel_create_missing_key_witness :
  KgeModel_create Classes.model_classes Classes.to 0 Classes.dataset Scenario.configs
  = (Raised (Builtin (KeyError "model")), Scenario.configs).
Proof.
  destruct (KgeModel_create_missing_key Classes.model_classes Classes.to
              Scenario.configs 0 Classes.dataset Scenario.options) as (Hmodel & _).
  - reflexivity.
  - apply Hmodel. reflexivity.
Defined.


(** ** KgeModel.__init__ *)

Lemma KgeEmbedder_create_missing_type {Embedder : Type}
    (embedder_classes : string → option (nat → Dataset → string → nat → F Embedder))
    (h : store) (c : nat) (dataset : Dataset) (ck : string) (vocab_size : nat)
    (options : list (string * scalar)) :
  h !! c = Some options →
  is_Ok (options_get options (ck +:+ ".type")) = false →
  KgeEmbedder_create embedder_classes c dataset ck vocab_size h
  = (Raised (Exception (cannot_find_type ck)), h).
Proof.
  intros Hconfig Htype. unfold KgeEmbedder_create.
  rewrite (create_names h c _ _ options Hconfig).
  by destruct (options_get options (ck +:+ ".type")).
Qed.

Lemma model_key (h : store) (c : nat) (options : list (string * scalar)) (m suffix : string) :
  h !! c = Some options →
  options_get options "model" = Ok (Leaf (SStr m)) →
  run (model ← Config_get c "model"; lift (py_add_str model suffix)) h
  = (Returned (m +:+ suffix), h).
Proof.
  intros Hconfig Hmodel. unfold run, mbind, M_bind.
  by rewrite (Config_get_eq _ _ _ _ Hconfig), Hmodel.
Qed.

(** X21: [KgeModel.__init__] first sets up its base part, which adds the
    empty [meta] dictionary of the model to the store. Without
    [initialize_embedders] it returns there, with no embedders. Otherwise
    it creates the entity embedder first, under [<model>.entity_embedder]:
    when that section has no [type] the constructor ends with the
    factory's [Exception] for it, the store holding the new [meta]
    dictionary and nothing else new. When the entity embedder is built and
    the section [<model>.relation_embedder] has no [type], it ends with the
    [Exception] for that section, in the store the entity embedder's
    construction has left. When both are built, the relation embedder was
    made for [num_relations] objects, after the entity embedder. *)
Theorem KgeModel_init_embedders {Torch Embedder : Type}
    (embedder_classes : string → option (nat → Dataset → string → nat → F Embedder))
    (torch_module : Torch)
    (h : store) (c : nat) (dataset : Dataset) (options : list (string * scalar))
    (m : string) :
  h !! c = Some options →
  options_get options "model" = Ok (Leaf (SStr m)) →
  KgeModel_init embedder_classes torch_module c dataset false h
  = (Returned ({| torch_module := torch_module; base_config := c; meta := fresh (dom h) |},
               None, None),
     <[fresh (dom h) := []]> h)
  ∧ (is_Ok (options_get options ((m +:+ ".entity_embedder") +:+ ".type")) = false →
     KgeModel_init embedder_classes torch_module c dataset true h
     = (Raised (Exception (cannot_find_type (m +:+ ".entity_embedder"))),
        <[fresh (dom h) := []]> h))
  ∧ (∀ entity h1 options1,
       KgeEmbedder_create embedder_classes c dataset (m +:+ ".entity_embedder")
         (num_entities dataset) (<[fresh (dom h) := []]> h) = (Returned entity, h1) →
       h1 !! c = Some options1 →
       options_get options1 "model" = Ok (Leaf (SStr m)) →
       (is_Ok (options_get options1 ((m +:+ ".relation_embedder") +:+ ".type")) = false →
        KgeModel_init embedder_classes torch_module c dataset true h
        = (Raised (Exception (cannot_find_type (m +:+ ".relation_embedder"))), h1))
       ∧ (∀ relation h2,
            KgeEmbedder_create embedder_classes c dataset (m +:+ ".relation_embedder")
              (num_relations dataset) h1 = (Returned relation, h2) →
            KgeModel_init embedder_classes torch_module c dataset true h
            = (Returned ({| torch_module := torch_module; base_config := c;
                            meta := fresh (dom h) |},
                         Some entity, Some relation), h2))).
Proof.
  intros Hconfig Hmodel.
  pose proof (lookup_after_KgeBase_init h c options Hconfig) as Hconfig0.
  split; [done|].
  assert (KgeModel_init embedder_classes torch_module c dataset true h =
          match KgeEmbedder_create embedder_classes c dataset (m +:+ ".entity_embedder")
                  (num_entities dataset) (<[fresh (dom h) := []]> h) with
          | (Returned entity, h1) =>
              (key ← run (model ← Config_get c "model";
                          lift (py_add_str model ".relation_embedder"));
               relation ← KgeEmbedder_create embedder_classes c dataset key
                            (num_relations dataset);
               mret ({| torch_module := torch_module; base_config := c;
                        meta := fresh (dom h) |}, Some entity, Some relation)) h1
          | (Raised r, h1) => (Raised r, h1)
          end) as ->.
  { unfold KgeModel_init. unfold mbind at 1, F_bind at 1.
    unfold run at 1. rewrite KgeBase_init_eq.
    unfold mbind at 1, F_bind at 1.
    by rewrite (model_key _ c options m _ Hconfig0 Hmodel). }
  split.
  - intros Htype.
    by rewrite (KgeEmbedder_create_missing_type _ _ _ _ _ _ options Hconfig0 Htype).
  - intros entity h1 options1 -> Hconfig1 Hmodel1.
    split.
    + intros Htype.
      unfold mbind at 1, F_bind at 1.
      rewrite (model_key h1 c options1 m _ Hconfig1 Hmodel1).
      unfold mbind at 1, F_bind at 1.
      by rewrite (KgeEmbedder_create_missing_type _ _ _ _ _ _ options1 Hconfig1 Htype).
    + intros relation h2 Hrelation.
      unfold mbind at 1, F_bind at 1.
      rewrite (model_key h1 c options1 m _ Hconfig1 Hmodel1).
      unfold mbind at 1, F_bind at 1.
      by rewrite Hrelation.
Qed.

Lemma KgeModel_init_embedders_witness :
  KgeModel_init Classes.embedder_classes tt 0 Classes.dataset true
    (<[0 := ("model", SStr "m") :: Scenario.options]> Scenario.configs)
  = (Raised (Exception (cannot_find_type ("m" +:+ ".relation_embedder"))),
     (KgeEmbedder_create Classes.embedder_classes 0 Classes.dataset
        ("m" +:+ ".entity_embedder") 3
        (<[fresh (dom (<[0 := ("model", SStr "m") :: Scenario.options]> Scenario.configs))
           := []]>
           (<[0 := ("model", SStr "m") :: Scenario.options]> Scenario.configs))).2).
Proof.
  destruct (KgeModel_init_embedders Classes.embedder_classes tt
              (<[0 := ("model", SStr "m") :: Scenario.options]> Scenario.configs)
              0 Classes.dataset (("model", SStr "m") :: Scenario.options) "m")
    as (_ & _ & Hentity).
  - reflexivity.
  - reflexivity.
  - edestruct Hentity as (Hrelation & _).
    + vm_compute. reflexivity.
    + vm_compute. reflexivity.
    + reflexivity.
    + apply Hrelation. reflexivity.
Defined.

(** ** KgeBase: save and load *)

Lemma dict_lookup_setitem {V} (k : string) (v : V) (d : list (string * V)) :
  dict_lookup k (dict_setitem k v d) = Some v.
Proof.
  unfold dict_setitem. destruct (dict_lookup k d) as [v0|] eqn:Hk.
  - rewrite dict_lookup_dict_update, decide_True by done. by rewrite Hk.
  - induction d as [|[k0 v0] d IH]; simpl in *.
    + by rewrite decide_True.
    + case_decide; [done|]. by apply IH.
Qed.

Section SaveLoad.
Context {Torch StateDict : Type}.
Variable state_dict : Torch → StateDict.
Variable load_state_dict : Torch → StateDict → result unit * Torch.

(** X22: [save] hands out the module's own [meta] dictionary and [load]
    adopts the dictionary of the savepoint, neither copies it: two modules
    are constructed with distinct [meta] dictionaries, and once one has
    loaded a savepoint of the other they share one, so an entry written
    through the first is read through the second. When [load_state_dict]
    raises, [load] keeps the module's own [meta]. *)
Theorem load_shares_meta (ta tb : Torch) (ca cb : nat) (h0 h1 h2 : store)
    (a b : KgeBase Torch) :
  KgeBase_init ta ca h0 = (Ok a, h1) →
  KgeBase_init tb cb h1 = (Ok b, h2) →
  meta a ≠ meta b
  ∧ (∀ b', load load_state_dict b (save state_dict a) = (Ok tt, b') →
       meta b' = meta a
       ∧ ∀ k v, ∃ h3, meta_setitem a k v h2 = (Ok tt, h3)
                      ∧ meta_getitem b' k h3 = (Ok v, h3))
  ∧ (∀ e b', load load_state_dict b (save state_dict a) = (Err e, b') →
       meta b' = meta b).
Proof.
  unfold KgeBase_init, mbind, M_bind, alloc. simpl.
  intros [= <- <-] [= <- <-]. simpl.
  assert (fresh (dom h0) ≠ fresh (dom (<[fresh (dom h0) := []]> h0))) as Hne.
  { intros Heq. apply (is_fresh (dom (<[fresh (dom h0) := []]> h0))).
    rewrite <- Heq. apply elem_of_dom. by rewrite lookup_insert_eq. }
  split_and!; [done| |].
  - intros b'. unfold load, save. simpl.
    destruct (load_state_dict tb (state_dict ta)) as [[[]|e] tb']; [|done].
    intros [= <-]. simpl. split; [done|]. intros k v.
    unfold meta_setitem, meta_getitem, mbind, M_bind, deref, assign, lift. simpl.
    rewrite lookup_insert_ne by done. rewrite lookup_insert_eq.
    eexists. split; [done|].
    rewrite lookup_insert_eq. unfold dict_getitem.
    by rewrite dict_lookup_setitem.
  - intros e b'. unfold load, save. simpl.
    destruct (load_state_dict tb (state_dict ta)) as [[[]|e'] tb']; [done|].
    by intros [= <- <-].
Qed.
End SaveLoad.

Lemma load_shares_meta_witness :
  meta {| torch_module := [1; 2]%Z; base_config := 0; meta := 2 |}
  ≠ meta {| torch_module := [0; 0]%Z; base_config := 0; meta := 3 |}
  ∧ (∀ b', load Classes.load_state_dict
             {| torch_module := [0; 0]%Z; base_config := 0; meta := 3 |}
             (save Classes.state_dict
                {| torch_module := [1; 2]%Z; base_config := 0; meta := 2 |})
           = (Ok tt, b') →
       meta b' = 2
       ∧ ∀ k v, ∃ h3,
           meta_setitem {| torch_module := [1; 2]%Z; base_config := 0; meta := 2 |} k v
             (<[3 := []]> (<[2 := []]> Scenario.configs)) = (Ok tt, h3)
           ∧ meta_getitem b' k h3 = (Ok v, h3))
  ∧ (∀ e b', load Classes.load_state_dict
               {| torch_module := [0; 0]%Z; base_config := 0; meta := 3 |}
               (save Classes.state_dict
                  {| torch_module := [1; 2]%Z; base_config := 0; meta := 2 |})
             = (Err e, b') →
       meta b' = 3).
Proof.
  apply (load_shares_meta Classes.state_dict Classes.load_state_dict
           [1; 2]%Z [0; 0]%Z 0 0 Scenario.configs
           (<[2 := []]> Scenario.configs) (<[3 := []]> (<[2 := []]> Scenario.configs))).
  - vm_compute. reflexivity.
  - vm_compute. reflexivity.
Defined.
